(** * okto / component: the resource parser

    A shallow embedding of [component/resource_parser.go]: the
    [ResourceParser] with its category registry and form store, and the
    six merge procedures behind [Parse].

    Go values are embedded as follows.
    - A [string] is a sequence of bytes: Rocq's [string].
    - A content row is a [map[string]string] that may be [nil]:
      [option (gmap string string)]; reading a key of a nil or of a
      non-nil map that lacks it gives the empty string.
    - [map[[2]string]T] is [gmap (string * string) T].
    - The registry's [list] holds pointers to categories that are allocated
      by [addCat]'s callers only, one fresh object per call, and every
      localized subcategory, difficulty and item is likewise allocated
      fresh and linked to one owner.  A pointer into this forest is
      therefore a position (an index into the owner's slice), and writing
      through it is an update at that position.
    - A method mutates its receiver and its [*Resource] argument in place;
      a call is a function from the receiver and the resource before to an
      outcome that carries the returned error and both objects after.
    - A Go run-time panic (index out of range) is the outcome [Panic]. *)

From Stdlib Require Import ZArith Ascii String.
From stdpp Require Import gmap strings list fin_maps.



(** ** The parts of Go's [strings] package that the parser calls *)

Module GoStrings.

Definition bytes (l : list nat) : string :=
  string_of_list_ascii (ascii_of_nat <$> l).

(** [unicode.IsSpace], as the UTF-8 encodings of the runes it accepts:
    the six ASCII ones, U+0085, U+00A0, U+1680, U+2000..U+200A, U+2028,
    U+2029, U+202F, U+205F and U+3000.  Only the shortest encoding of a
    rune decodes to it, so matching these byte sequences is matching the
    decoded rune, at the front ([DecodeRuneInString]) as at the back
    ([DecodeLastRuneInString]). *)
Definition spaceRunes : list string :=
  (bytes <$> [[9]; [10]; [11]; [12]; [13]; [32]; [194; 133]; [194; 160];
              [225; 154; 128]])
  ++ ((λ b, bytes [226; 128; b]) <$> seq 128 11)
  ++ (bytes <$> [[226; 128; 168]; [226; 128; 169]; [226; 128; 175];
                 [226; 129; 159]; [227; 128; 128]]).

(** [stripPrefix p s] is the rest of [s] after its prefix [p]. *)
Fixpoint stripPrefix (p s : string) : option string :=
  match p, s with
  | EmptyString, _ => Some s
  | String a p', String b s' =>
      if Ascii.eqb a b then stripPrefix p' s' else None
  | String _ _, EmptyString => None
  end.

(** The rest of [s] after one leading rune out of [runes]. *)
Fixpoint stripRune (runes : list string) (s : string) : option string :=
  match runes with
  | [] => None
  | p :: runes' =>
      match stripPrefix p s with
      | Some rest => Some rest
      | None => stripRune runes' s
      end
  end.

Fixpoint trimLeftRunes (fuel : nat) (runes : list string) (s : string)
  : string :=
  match fuel with
  | O => s
  | S fuel' =>
      match stripRune runes s with
      | Some rest => trimLeftRunes fuel' runes rest
      | None => s
      end
  end.

(** [strings.TrimLeftFunc(s, unicode.IsSpace)]; each step removes at
    least one byte, so [String.length s] steps are enough. *)
Definition TrimLeft (s : string) : string :=
  trimLeftRunes (String.length s) spaceRunes s.

(** [strings.TrimRightFunc(s, unicode.IsSpace)]. *)
Definition TrimRight (s : string) : string :=
  String.rev
    (trimLeftRunes (String.length s) (String.rev <$> spaceRunes)
       (String.rev s)).

(** [strings.TrimSpace]: all leading and trailing white space removed. *)
Definition TrimSpace (s : string) : string := TrimRight (TrimLeft s).

(** [strings.Split(s, sep)] for a separator of one byte: the pieces of
    [s] between the occurrences of [sep], of which there is one more
    than there are occurrences. *)
Fixpoint Split (s : string) (sep : ascii) : list string :=
  match s with
  | EmptyString => [""]
  | String c s' =>
      if Ascii.eqb c sep then "" :: Split s' sep
      else match Split s' sep with
           | piece :: pieces => String c piece :: pieces
           | [] => [String c ""]
           end
  end.

Definition isEmpty (s : string) : bool :=
  match s with EmptyString => true | String _ _ => false end.

End GoStrings.

Import GoStrings.

(** ** Data model

    The declarations of the package's types are in files of the
    repository other than [resource_parser.go].  The records below have
    the fields [resource_parser.go] reads and writes, and the containers
    the spec's data model gives them. *)

(** A content row; [None] is the nil map. *)
Abbreviation Row := (option (gmap string string)).

(** [row[key]]: the empty string for a nil map and for a missing key. *)
Definition field (row : Row) (key : string) : string :=
  match row with
  | None => ""
  | Some m => default "" (m !! key)
  end.

(** Modelled from the spec: the type [Resource] is not in
    [resource_parser.go]; "a Resource is an ordered sequence of content
    rows, each row a string-keyed mapping from field name to text". *)
Record Resource := mkResource { Content : list Row }.

(** Modelled from the spec: the type [Check] is not in
    [resource_parser.go]; a check has a text and the schema's skip flag. *)
Record Check := mkCheck { Text : string; NoCheck : bool }.

(** Modelled from the spec: the type [Checklist] is not in
    [resource_parser.go]; "checks: ordered sequence". *)
Record Checklist := mkChecklist { Checks : list Check }.

(** Modelled from the spec: the type [Item] is not in
    [resource_parser.go].  [Order] is only ever copied. *)
Record Item := mkItem {
  item_ID : string;
  Title : string;
  Body : string;
  item_Order : Z
}.

(** Modelled from the spec: the type [Difficulty] is not in
    [resource_parser.go]; a difficulty owns "Items and at most one
    Checklist" ([None] is the nil checklist pointer). *)
Record Difficulty := mkDifficulty {
  dif_ID : string;
  Descr : string;
  items : list Item;
  checks : option Checklist
}.

(** Modelled from the spec: the type [Subcategory] is not in
    [resource_parser.go]; a subcategory owns its difficulties. *)
Record Subcategory := mkSubcategory {
  sub_ID : string;
  sub_Order : Z;
  sub_Name : string;
  difficulties : list Difficulty
}.

(** Modelled from the spec: the type [Category] is not in
    [resource_parser.go]; a category owns its subcategories. *)
Record Category := mkCategory {
  cat_ID : string;
  cat_Order : Z;
  cat_Name : string;
  Locale : string;
  subcategories : list Subcategory
}.

(** Schema nodes below a category carry a [parent] pointer, which the
    parser only follows upwards to read identifiers.  A node handed to
    the parser is the node with the chain of its ancestors, each of them
    present (the spec: "Subcategory(id, order, parent: Category)"). *)
Record SubcategoryNode := mkSubcategoryNode {
  sub_node : Subcategory;
  sub_parent : Category
}.

Record DifficultyNode := mkDifficultyNode {
  dif_node : Difficulty;
  dif_parent : SubcategoryNode
}.

Record ItemNode := mkItemNode {
  item_node : Item;
  item_parent : DifficultyNode
}.

Record ChecklistNode := mkChecklistNode {
  chk_node : Checklist;
  chk_parent : DifficultyNode
}.

(** Modelled from the spec: the type [FormInput] is not in
    [resource_parser.go]; "ItemSlot(label?, hint?, options?)".  [Options]
    is a slice of strings, [None] being the nil slice. *)
Record FormInput := mkFormInput {
  Label : string;
  Hint : string;
  Options : option (list string)
}.

(** Modelled from the spec: the type [FormScreen] is not in
    [resource_parser.go]; "Screen(name?, items: ordered sequence of
    ItemSlot)". *)
Record FormScreen := mkFormScreen {
  scr_Name : string;
  Items : list FormInput
}.

(** Modelled from the spec: the type [Form] is not in
    [resource_parser.go]. *)
Record Form := mkForm {
  form_ID : string;
  form_Name : string;
  form_Locale : string;
  Screens : list FormScreen
}.

(** The dynamic type of the [Component] handed to [Parse]; [COther] is a
    value of any type outside the six that [Parse] lists. *)
Inductive Component :=
| CForm (f : Form)
| CCategory (c : Category)
| CSubcategory (s : SubcategoryNode)
| CDifficulty (d : DifficultyNode)
| CItem (i : ItemNode)
| CChecklist (c : ChecklistNode)
| COther.

(** The zero values that [make] fills a slice with. *)
Definition zeroFormInput : FormInput := mkFormInput "" "" None.
Definition zeroFormScreen : FormScreen := mkFormScreen "" [].

(** *** Errors

    One constructor per error value the parser returns: the package's
    [ErrContent], [errors.New("Invalid Component")], and one per
    [fmt.Errorf] format, with the arguments it is given. *)
Inductive error :=
| ErrContent
| ErrInvalidComponent
| ErrNoMoreAtScreen (i n : nat)            (* "No more at screen %d/%d" *)
| ErrExpectedScreen (i : nat)              (* "Expected screen %d, got item" *)
| ErrExpectedItem (i j : nat) (s : string) (* "Expected item %d/%d, got screen %q" *)
| ErrNoCat (id locale : string)            (* "No cat %q (%s)" *)
| ErrNoSub (id locale : string)            (* "No sub %q (%s)" *)
| ErrNoDif (id locale : string)            (* "No dif %q (%s)" *)
| ErrInvalidLegacy (id locale : string)    (* "Invalid Legacy %q (%s)" *)
| ErrChecks (l e : nat).                   (* "%d checks, %s expected" *)

(** Modelled from the spec: the three error kinds of its section 7, which
    the code does not name. *)
Inductive ErrorKind := ShapeMismatch | NotFound | UnsupportedVariant.

Definition kind (e : error) : ErrorKind :=
  match e with
  | ErrContent | ErrNoMoreAtScreen _ _ | ErrExpectedScreen _
  | ErrExpectedItem _ _ _ | ErrInvalidLegacy _ _ | ErrChecks _ _ =>
      ShapeMismatch
  | ErrNoCat _ _ | ErrNoSub _ _ | ErrNoDif _ _ => NotFound
  | ErrInvalidComponent => UnsupportedVariant
  end.

(** *** The parser's state *)

Record Registry := mkRegistry {
  index : gmap (string * string) nat;
  list_ : list Category   (* the field [list] *)
}.

Record ResourceParser := mkResourceParser {
  buffer : string;       (* the contents of the [bytes.Buffer] *)
  categories : Registry;
  forms : gmap (string * string) Form
}.

(** *** Outcomes *)

(** A computation that may panic. *)
Inductive result (A : Type) :=
| Val (a : A)
| Panic.
Arguments Val {A} a.
Arguments Panic {A}.

(** What a call of a merge procedure leaves behind when it returns: the
    error (nil is [None]), the receiver and the resource. *)
Record Return := mkReturn {
  err : option error;
  parser : ResourceParser;
  resource : Resource
}.

(** ** Methods of the tree's types

    These methods are called by the parser and declared elsewhere in the
    package. *)

(** Modelled from the spec: [Category.Add] is not in
    [resource_parser.go]; it "appends a new Subcategory to the parent's
    ordered child list". *)
Definition Category_Add (c : Category) (s : Subcategory) : Category :=
  mkCategory (cat_ID c) (cat_Order c) (cat_Name c) (Locale c)
    (subcategories c ++ [s]).

(** Modelled from the spec: [Category.Sub] is not in
    [resource_parser.go]; "a by-id child lookup", nil when no child has
    the identifier.  The pointer it returns is the child's position. *)
Definition Category_Sub (c : Category) (id : string)
  : option (nat * Subcategory) :=
  list_find (λ s, sub_ID s = id) (subcategories c).

(** Modelled from the spec: [Subcategory.AddDifficulty] is not in
    [resource_parser.go]; the difficulty is "appended to the
    subcategory". *)
Definition Subcategory_AddDifficulty (s : Subcategory) (d : Difficulty)
  : Subcategory :=
  mkSubcategory (sub_ID s) (sub_Order s) (sub_Name s) (difficulties s ++ [d]).

(** Modelled from the spec: [Subcategory.Difficulty] is not in
    [resource_parser.go]; the by-id lookup of a difficulty. *)
Definition Subcategory_Difficulty (s : Subcategory) (id : string)
  : option (nat * Difficulty) :=
  list_find (λ d, dif_ID d = id) (difficulties s).

(** Modelled from the spec: [Difficulty.AddItem] is not in
    [resource_parser.go]; it "appends the built Item to the difficulty's
    ordered item list". *)
Definition Difficulty_AddItem (d : Difficulty) (i : Item) : Difficulty :=
  mkDifficulty (dif_ID d) (Descr d) (items d ++ [i]) (checks d).

(** Modelled from the spec: [Difficulty.SetChecks] is not in
    [resource_parser.go]; it "replaces (not appends) any existing
    checklist on the difficulty". *)
Definition Difficulty_SetChecks (d : Difficulty) (c : Checklist)
  : Difficulty :=
  mkDifficulty (dif_ID d) (Descr d) (items d) (Some c).

(** Modelled from the spec: [Checklist.Add] is not in
    [resource_parser.go]; the checks are kept in the order they are
    added. *)
Definition Checklist_Add (c : Checklist) (k : Check) : Checklist :=
  mkChecklist (Checks c ++ [k]).

(** *** Writing through a pointer into the registry *)

Definition withList (r : ResourceParser) (l : list Category)
  : ResourceParser :=
  mkResourceParser (buffer r) (mkRegistry (index (categories r)) l) (forms r).

Definition withBuffer (r : ResourceParser) (b : string) : ResourceParser :=
  mkResourceParser b (categories r) (forms r).

(** The category at position [ci] of the list, replaced by its image
    under [f]. *)
Definition updCat (ci : nat) (f : Category → Category) (r : ResourceParser)
  : ResourceParser :=
  withList r (alter f ci (list_ (categories r))).

(** The same for a subcategory at position [si] of a category. *)
Definition updSub (si : nat) (f : Subcategory → Subcategory) (c : Category)
  : Category :=
  mkCategory (cat_ID c) (cat_Order c) (cat_Name c) (Locale c)
    (alter f si (subcategories c)).

(** The same for a difficulty at position [di] of a subcategory. *)
Definition updDif (di : nat) (f : Difficulty → Difficulty) (s : Subcategory)
  : Subcategory :=
  mkSubcategory (sub_ID s) (sub_Order s) (sub_Name s)
    (alter f di (difficulties s)).

(** ** The parser *)

Definition NewResourceParser : ResourceParser :=
  mkResourceParser "" (mkRegistry ∅ []) ∅.

Definition addCat (c : Category) (r : ResourceParser) : ResourceParser :=
  mkResourceParser (buffer r)
    (mkRegistry
       (<[(cat_ID c, Locale c) := length (list_ (categories r))]>
          (index (categories r)))
       (list_ (categories r) ++ [c]))
    (forms r).

(** [getCat]: nil when the index is empty; otherwise the element of the
    list at the position the index gives, which for a key that the index
    lacks is the zero value of [int].  The result is the pointer (the
    position) with the category it points to. *)
Definition getCat (id locale : string) (r : ResourceParser)
  : result (option (nat * Category)) :=
  if decide (size (index (categories r)) = 0) then Val None
  else
    let idx := default 0 (index (categories r) !! (id, locale)) in
    match list_ (categories r) !! idx with
    | Some c => Val (Some (idx, c))
    | None => Panic
    end.

Definition Categories (r : ResourceParser) : gmap string (list Category) :=
  fold_left
    (λ res cat, <[Locale cat := default [] (res !! Locale cat) ++ [cat]]> res)
    (list_ (categories r)) ∅.

(** *** [parseForm] *)

(** The state of [parseForm]'s loops is local to the call: the rows left
    in [m] and the form under construction.  A loop ends normally, with
    the error [parseForm] returns, or in a panic. *)
Inductive exec (A : Type) :=
| Done (a : A)
| Fail (e : error)
| Crash.
Arguments Done {A} a.
Arguments Fail {A} e.
Arguments Crash {A}.

#[global] Instance exec_bind : MBind exec := λ A B k x,
  match x with
  | Done a => k a
  | Fail e => Fail e
  | Crash => Crash
  end.

Definition isNil {A} (o : option A) : bool :=
  match o with None => true | Some _ => false end.

(** The loop [for j := range screen.Items] from position [j] on: [its]
    is [screen.Items[j:]], the items of the screen being built, and [m]
    the rows left.  [item := screen.Items[j]] copies the element, so the
    three assignments to the fields of [item] do not reach the slice;
    only [m] changes. *)
Fixpoint formItems (i j : nat) (its : list FormInput) (m : list Row)
  : exec (list Row) :=
  match its with
  | [] => Done m
  | item :: its' =>
      if isEmpty (Label item) && isEmpty (Hint item) && isNil (Options item)
      then formItems i (S j) its' m
      else
        match m with
        | [] => Crash                                   (* m[0] *)
        | row :: m' =>
            if negb (isEmpty (field row "screen"))
            then Fail (ErrExpectedItem i j (field row "screen"))
            else
              let item :=
                mkFormInput (field row "label") (field row "hint")
                  (Some (Split (field row "options") ";")) in
              formItems i (S j) its' m'
        end
  end.

(** The header of screen [i], whose schema is [fs]: the name of the new
    screen and the rows left. *)
Definition formHeader (n i : nat) (fs : FormScreen) (m : list Row)
  : exec (string * list Row) :=
  if negb (isEmpty (scr_Name fs)) then
    match m with
    | [] => Fail (ErrNoMoreAtScreen (i + 1) n)
    | row :: m' =>
        if negb (isEmpty (field row "screen"))
        then Done (field row "screen", m')
        else Fail (ErrExpectedScreen i)
    end
  else Done ("", m).

(** The loop [for i := range newForm.Screens] from position [i] on;
    [fss] is [f.Screens[i:]], which is as long as [newForm.Screens[i:]],
    and [n] is [len(f.Screens)].  The result is [newForm.Screens[i:]]
    after the loop. *)
Fixpoint formScreens (n i : nat) (fss : list FormScreen) (m : list Row)
  : exec (list FormScreen) :=
  match fss with
  | [] => Done []
  | fs :: fss' =>
      let its := replicate (length (Items fs)) zeroFormInput in
      '(name, m1) ← formHeader n i fs m;
      m2 ← formItems i 0 its m1;
      rest ← formScreens n (S i) fss' m2;
      Done (mkFormScreen name its :: rest)
  end.

Definition parseForm (f : Form) (res : Resource) (locale : string)
    (r : ResourceParser) : result Return :=
  match Content res with
  | [] => Panic                                         (* res.Content[0] *)
  | row0 :: m =>
      match formScreens (length (Screens f)) 0 (Screens f) m with
      | Done screens =>
          let newForm := mkForm (form_ID f) (field row0 "form") locale screens in
          Val (mkReturn None
                 (mkResourceParser (buffer r) (categories r)
                    (<[(form_ID newForm, form_Locale newForm) := newForm]>
                       (forms r)))
                 res)
      | Fail e => Val (mkReturn (Some e) r res)
      | Crash => Panic
      end
  end.

(** *** [parseCategory], [parseSubcategory], [parseDifficulty] *)

Definition parseCategory (c : Category) (res : Resource) (locale : string)
    (r : ResourceParser) : result Return :=
  match Content res with
  | [row] =>
      Val (mkReturn None
             (addCat (mkCategory (cat_ID c) (cat_Order c) (field row "name")
                        locale [])
                r)
             res)
  | _ => Val (mkReturn (Some ErrContent) r res)
  end.

Definition parseSubcategory (s : SubcategoryNode) (res : Resource)
    (locale : string) (r : ResourceParser) : result Return :=
  match Content res with
  | [row] =>
      match getCat (cat_ID (sub_parent s)) locale r with
      | Panic => Panic
      | Val None =>
          Val (mkReturn (Some (ErrNoCat (cat_ID (sub_parent s)) locale)) r res)
      | Val (Some (ci, _)) =>
          let new :=
            mkSubcategory (sub_ID (sub_node s)) (sub_Order (sub_node s))
              (field row "name") [] in
          Val (mkReturn None (updCat ci (λ cat, Category_Add cat new) r) res)
      end
  | _ => Val (mkReturn (Some ErrContent) r res)
  end.

Definition parseDifficulty (d : DifficultyNode) (res : Resource)
    (locale : string) (r : ResourceParser) : result Return :=
  match Content res with
  | [row] =>
      let catID := cat_ID (sub_parent (dif_parent d)) in
      let subID := sub_ID (sub_node (dif_parent d)) in
      match getCat catID locale r with
      | Panic => Panic
      | Val None => Val (mkReturn (Some (ErrNoCat catID locale)) r res)
      | Val (Some (ci, cat)) =>
          match Category_Sub cat subID with
          | None => Val (mkReturn (Some (ErrNoSub subID locale)) r res)
          | Some (si, _) =>
              let new :=
                mkDifficulty (dif_ID (dif_node d)) (field row "description")
                  [] None in
              Val (mkReturn None
                     (updCat ci
                        (updSub si (λ sub, Subcategory_AddDifficulty sub new))
                        r)
                     res)
          end
      end
  | _ => Val (mkReturn (Some ErrContent) r res)
  end.

(** *** [parseChecklist] *)

(** [for len(res.Content) > 0 && res.Content[0] == nil] *)
Fixpoint dropNil (rows : list Row) : list Row :=
  match rows with
  | None :: rows' => dropNil rows'
  | _ => rows
  end.

(** The loop [for i, r := range res.Content] from position [i] on, over
    the rows [rows]; [schema] is [c.Checks]. *)
Fixpoint addChecks (schema : list Check) (i : nat) (rows : list Row)
    (cl : Checklist) : result Checklist :=
  match rows with
  | [] => Val cl
  | row :: rows' =>
      match schema !! i with
      | None => Panic                                   (* c.Checks[i] *)
      | Some k =>
          addChecks schema (S i) rows'
            (Checklist_Add cl (mkCheck (TrimSpace (field row "text")) (NoCheck k)))
      end
  end.

Definition parseChecklist (c : ChecklistNode) (res : Resource)
    (locale : string) (r : ResourceParser) : result Return :=
  let catID := cat_ID (sub_parent (dif_parent (chk_parent c))) in
  let subID := sub_ID (sub_node (dif_parent (chk_parent c))) in
  let difID := dif_ID (dif_node (chk_parent c)) in
  match getCat catID locale r with
  | Panic => Panic
  | Val None => Val (mkReturn (Some (ErrNoCat subID locale)) r res)
  | Val (Some (ci, cat)) =>
      match Category_Sub cat subID with
      | None => Val (mkReturn (Some (ErrNoSub subID locale)) r res)
      | Some (si, sub) =>
          match Subcategory_Difficulty sub difID with
          | None => Val (mkReturn (Some (ErrNoDif difID locale)) r res)
          | Some (di, _) =>
              let res := mkResource (dropNil (Content res)) in
              let l := length (Content res) in
              let e := length (Checks (chk_node c)) in
              if negb (l =? e) then Val (mkReturn (Some (ErrChecks l e)) r res)
              else
                match addChecks (Checks (chk_node c)) 0 (Content res)
                        (mkChecklist []) with
                | Panic => Panic
                | Val cl =>
                    Val (mkReturn None
                           (updCat ci
                              (updSub si
                                 (updDif di (λ dif, Difficulty_SetChecks dif cl)))
                              r)
                           res)
                end
          end
      end
  end.

(** *** [parseItem] and [Parse] *)

Section Parser.

(** The package's constant [paragraphSep] is declared in another file. *)
Variable paragraphSep : string.

(** One turn of the loop [for _, v := range res.Content[1:]], on the
    contents of the buffer. *)
Definition writeParagraph (buf : string) (v : Row) : string :=
  let buf :=
    if negb (String.length buf =? 0) then buf +:+ paragraphSep else buf in
  buf +:+ TrimSpace (field v "body").

Definition parseItem (i : ItemNode) (res : Resource) (locale : string)
    (r : ResourceParser) : result Return :=
  match Content res with
  | [] => Val (mkReturn (Some ErrContent) r res)
  | row0 :: rest =>
      let catID := cat_ID (sub_parent (dif_parent (item_parent i))) in
      let subID := sub_ID (sub_node (dif_parent (item_parent i))) in
      let difID := dif_ID (dif_node (item_parent i)) in
      match getCat catID locale r with
      | Panic => Panic
      | Val None => Val (mkReturn (Some (ErrNoCat subID locale)) r res)
      | Val (Some (ci, cat)) =>
          match Category_Sub cat subID with
          | None => Val (mkReturn (Some (ErrNoSub subID locale)) r res)
          | Some (si, sub) =>
              match Subcategory_Difficulty sub difID with
              | None => Val (mkReturn (Some (ErrNoDif difID locale)) r res)
              | Some (di, _) =>
                  let title := TrimSpace (field row0 "title") in
                  let attach (buf : string) :=
                    let item :=
                      mkItem (item_ID (item_node i)) title buf
                        (item_Order (item_node i)) in
                    Val (mkReturn None
                           (updCat ci
                              (updSub si
                                 (updDif di
                                    (λ dif, Difficulty_AddItem dif item)))
                              (withBuffer r buf))
                           res) in
                  (* r.buffer.Reset() *)
                  let buf := "" in
                  if negb (isEmpty (field row0 "body")) then
                    match rest with
                    | _ :: _ =>
                        Val (mkReturn (Some (ErrInvalidLegacy difID locale))
                               (withBuffer r buf) res)
                    | [] => attach (buf +:+ TrimSpace (field row0 "body"))
                    end
                  else attach (fold_left writeParagraph rest buf)
              end
          end
      end
  end.

Definition Parse (cmp : Component) (res : Resource) (locale : string)
    (r : ResourceParser) : result Return :=
  match cmp with
  | CForm v => parseForm v res locale r
  | CCategory v => parseCategory v res locale r
  | CSubcategory v => parseSubcategory v res locale r
  | CDifficulty v => parseDifficulty v res locale r
  | CItem v => parseItem v res locale r
  | CChecklist v => parseChecklist v res locale r
  | COther => Val (mkReturn (Some ErrInvalidComponent) r res)
  end.

End Parser.

(** ** [splitSlug] *)

(** [strings.Replace(s, old, new, -1)] for a non-empty [old], which is how
    [splitSlug] calls it: the occurrences of [old] are found from left to
    right, none overlapping the one before, and each is replaced by [new].
    Every step consumes at least one byte of [s]. *)
Fixpoint replaceFrom (fuel : nat) (old new s : string) : string :=
  match fuel with
  | O => s
  | S fuel' =>
      match stripPrefix old s with
      | Some rest => new +:+ replaceFrom fuel' old new rest
      | None =>
          match s with
          | EmptyString => ""
          | String c s' => String c (replaceFrom fuel' old new s')
          end
      end
  end.

(** [strings.Replace] with as much fuel as [s] has bytes. *)
Definition Replace (s old new : string) : string :=
  replaceFrom (String.length s) old new s.

(** [splitSlug]: every underscore becomes a vertical bar, then every
    run of three bars, from the left, becomes bar, underscore, bar, and the
    result is split at the bars. *)
Definition splitSlug (s : string) : list string :=
  let s := Replace s "_" "|" in
  let s := Replace s "|||" "|_|" in
  Split s "|".

(** ** Notions of the specification *)

(** The ancestor chain of an item or a checklist resolves: the three
    lookups that [parseItem] and [parseChecklist] begin with all find
    something.  The result is the position of the category in the list,
    of the subcategory in the category and of the difficulty in the
    subcategory. *)
Definition resolveDif (catID subID difID locale : string) (r : ResourceParser)
  : option (nat * nat * nat) :=
  match getCat catID locale r with
  | Val (Some (ci, cat)) =>
      match Category_Sub cat subID with
      | Some (si, sub) =>
          match Subcategory_Difficulty sub difID with
          | Some (di, _) => Some (ci, si, di)
          | None => None
          end
      | None => None
      end
  | _ => None
  end.

(** The difficulty at a position of the registry. *)
Definition difAt (ci si di : nat) (r : ResourceParser) : option Difficulty :=
  cat ← list_ (categories r) !! ci;
  sub ← subcategories cat !! si;
  difficulties sub !! di.

(** The body of an item in paragraph mode, in the words of the spec: the
    pieces are appended one after the other to what has been accumulated,
    and the separator is put between the two when the accumulated prefix
    is not empty. *)
Fixpoint joinParagraphs (sep acc : string) (pieces : list string) : string :=
  match pieces with
  | [] => acc
  | p :: pieces' =>
      joinParagraphs sep
        (match acc with
         | EmptyString => p
         | String _ _ => acc +:+ sep +:+ p
         end)
        pieces'
  end.

(** The check that a checklist row and the schema's check at the same
    position make. *)
Definition pairCheck (row : Row) (k : Check) : Check :=
  mkCheck (TrimSpace (field row "text")) (NoCheck k).

(** ** Notions for the further properties *)

(** Every byte of [s] passes the test [p]. *)
Fixpoint allChars (p : ascii → bool) (s : string) : bool :=
  match s with
  | EmptyString => true
  | String c s' => p c && allChars p s'
  end.

(** A segment of a slug without the two bytes that [splitSlug] treats
    specially. *)
Definition plain (s : string) : bool :=
  allChars (λ c, negb (Ascii.eqb c "_") && negb (Ascii.eqb c "|")) s.

(** The key under which [addCat] files a category. *)
Definition catKey (c : Category) : string * string := (cat_ID c, Locale c).

(** What [NewResourceParser] establishes and [addCat] keeps: a key of the
    index leads to a category of the list that has this key, and to the
    last one of them; and the key of every category of the list is in the
    index. *)
Definition registry_ok (r : ResourceParser) : Prop :=
  let keys := catKey <$> list_ (categories r) in
  (∀ k i, index (categories r) !! k = Some i →
          keys !! i = Some k ∧ ∀ j, keys !! j = Some k → j ≤ i)
  ∧ (∀ k, k ∈ keys → is_Some (index (categories r) !! k)).

(** A change of a category after which the by-id lookups of its
    subcategories, and of their difficulties, find what they found, at
    the same positions. *)
Definition keepsChains (F : Category → Category) : Prop :=
  ∀ cat subID si sub,
    Category_Sub cat subID = Some (si, sub) →
    ∃ sub', Category_Sub (F cat) subID = Some (si, sub')
      ∧ ∀ difID di dif,
          Subcategory_Difficulty sub difID = Some (di, dif) →
          ∃ dif', Subcategory_Difficulty sub' difID = Some (di, dif').

(** The number of the schema's screens that have a name. *)
Definition namedScreens (fss : list FormScreen) : nat :=
  length (filter (λ fs, scr_Name fs ≠ "") fss).

(** [r'] has, at the positions of [r]'s list, categories with the same
    identifier, order, name and locale; its index has the keys of [r]'s
    index and its form store the keys of [r]'s form store. *)
Definition extends (r r' : ResourceParser) : Prop :=
  (∀ j c, list_ (categories r) !! j = Some c →
          ∃ c', list_ (categories r') !! j = Some c'
            ∧ cat_ID c' = cat_ID c ∧ cat_Order c' = cat_Order c
            ∧ cat_Name c' = cat_Name c ∧ Locale c' = Locale c)
  ∧ (∀ k, is_Some (index (categories r) !! k) →
          is_Some (index (categories r') !! k))
  ∧ (∀ k, is_Some (forms r !! k) → is_Some (forms r' !! k)).


(** ** Sample inputs *)

Module Sample.

(** A row with the given fields. *)
Definition row (l : list (string * string)) : Row := Some (list_to_map l).

(** Schema nodes: category [a], its subcategory [s], the difficulty [d]
    of [s]; and a category [b] with a subcategory [t] and a difficulty
    [e], which the samples never merge. *)
Definition catA : Category := mkCategory "a" 1 "" "" [].
Definition catB : Category := mkCategory "b" 2 "" "" [].
Definition subS : SubcategoryNode :=
  mkSubcategoryNode (mkSubcategory "s" 1 "" []) catA.
Definition subT : SubcategoryNode :=
  mkSubcategoryNode (mkSubcategory "t" 1 "" []) catB.
Definition subSofB : SubcategoryNode :=
  mkSubcategoryNode (mkSubcategory "s" 1 "" []) catB.
Definition difD : DifficultyNode :=
  mkDifficultyNode (mkDifficulty "d" "" [] None) subS.
Definition difE : DifficultyNode :=
  mkDifficultyNode (mkDifficulty "e" "" [] None) subSofB.
Definition itemI : ItemNode :=
  mkItemNode (mkItem "i" "" "" 1) difD.
Definition checksC : ChecklistNode :=
  mkChecklistNode (mkChecklist [mkCheck "" false; mkCheck "" true]) difD.

(** The parser after the merges, for the locale [en], of category [a]
    alone; of [a] and [s]; and of [a], [s] and [d]. *)
Definition withA : ResourceParser :=
  mkResourceParser "" (mkRegistry {[("a", "en") := 0]}
                         [mkCategory "a" 1 "A" "en" []]) ∅.
Definition withAS : ResourceParser :=
  mkResourceParser "" (mkRegistry {[("a", "en") := 0]}
                         [mkCategory "a" 1 "A" "en"
                            [mkSubcategory "s" 1 "S" []]]) ∅.
Definition withASD : ResourceParser :=
  mkResourceParser "" (mkRegistry {[("a", "en") := 0]}
                         [mkCategory "a" 1 "A" "en"
                            [mkSubcategory "s" 1 "S"
                               [mkDifficulty "d" "D" [] None]]]) ∅.

(** The form schema of the spec's alignment scenario: one named screen
    with a real item slot and a placeholder slot. *)
Definition formF : Form :=
  mkForm "f" "" ""
    [mkFormScreen "screen"
       [mkFormInput "label" "hint" (Some ["x"; "y"]); zeroFormInput]].
Definition formRows : Resource :=
  mkResource [row [("form", "F")]; row [("screen", "S1")];
              row [("label", "L"); ("hint", "H"); ("options", "a;b")]].

(** Rows for the checklist of [d], which has two checks: a nil row and
    two rows; a nil row and three rows. *)
Definition checkRows : Resource :=
  mkResource [None; row [("text", " a ")]; row [("text", "b")]].
Definition checkRows3 : Resource :=
  mkResource [None; row [("text", "a")]; row [("text", "b")];
              row [("text", "c")]].

(** Rows for the item [i]: a title and two paragraphs; one legacy row;
    a legacy row followed by another row. *)
Definition paragraphRows : Resource :=
  mkResource [row [("title", "T")]; row [("body", " p1 ")];
              row [("body", "p2")]].
Definition legacyRows : Resource :=
  mkResource [row [("title", "T"); ("body", " legacy ")]].
Definition legacyRows2 : Resource :=
  mkResource [row [("title", "T"); ("body", "x")]; row [("body", "y")]].

(** A paragraph separator: two line feeds. *)
Definition sep : string := bytes [10; 10].

End Sample.

(** ** The registry *)

Lemma getCat_empty id locale r :
  index (categories r) = ∅ → getCat id locale r = Val None.
Proof.
  intros E. unfold getCat. rewrite E, map_size_empty. reflexivity.
Qed.

(** After [addCat], the key of the new category leads to it. *)
Lemma getCat_addCat c r :
  getCat (cat_ID c) (Locale c) (addCat c r)
  = Val (Some (length (list_ (categories r)), c)).
Proof.
  unfold getCat, addCat. cbn.
  destruct (decide _) as [E|_].
  - apply map_size_empty_inv in E.
    apply (f_equal (λ m, m !! (cat_ID c, Locale c))) in E.
    rewrite lookup_insert_eq, lookup_empty in E. discriminate.
  - rewrite lookup_insert_eq. cbn.
    rewrite list_lookup_middle by reflexivity. reflexivity.
Qed.

(** [getCat] checks that the index has some key, not that it has the key
    it is asked for: for a key the index lacks, the result is the first
    category of the list. *)
Lemma getCat_missing_key id locale r c0 l :
  index (categories r) !! (id, locale) = None →
  index (categories r) ≠ ∅ →
  list_ (categories r) = c0 :: l →
  getCat id locale r = Val (Some (0, c0)).
Proof.
  intros Hk Hne Hl. unfold getCat.
  destruct (decide _) as [E|_].
  - apply map_size_empty_inv in E. contradiction.
  - rewrite Hk, Hl. reflexivity.
Qed.

(** What [Categories] gives for a locale: the categories of the list
    that have this locale, in the order of the list; no entry when there
    is none. *)
Lemma Categories_fold (l : list Category) (acc : gmap string (list Category))
    (loc : string) :
  fold_left
    (λ res cat, <[Locale cat := default [] (res !! Locale cat) ++ [cat]]> res)
    l acc !! loc
  = match filter (λ c, Locale c = loc) l with
    | [] => acc !! loc
    | c :: cs => Some (default [] (acc !! loc) ++ c :: cs)
    end.
Proof.
  revert acc. induction l as [|c l IH]; intros acc; [reflexivity|].
  cbn [fold_left]. rewrite IH. rewrite filter_cons.
  destruct (decide (Locale c = loc)) as [->|Hne].
  - rewrite lookup_insert_eq. cbn.
    destruct (filter _ l); [reflexivity|].
    rewrite <- app_assoc. reflexivity.
  - rewrite lookup_insert_ne by exact Hne. reflexivity.
Qed.

Lemma Categories_lookup r loc :
  Categories r !! loc
  = match filter (λ c, Locale c = loc) (list_ (categories r)) with
    | [] => None
    | c :: cs => Some (c :: cs)
    end.
Proof.
  unfold Categories. rewrite Categories_fold, lookup_empty. reflexivity.
Qed.

(** ** Category merges *)

(** C8.  A Category merge with exactly one content row succeeds: the list
    of the registry gains one entry at its end, the new category with the
    row's [name] and no children, the index maps (id, locale) to the
    position of that entry (and is otherwise as before), so that [getCat]
    finds it, and the form store is untouched.  With no row, and with two
    rows or more, the merge returns [ErrContent], a shape mismatch, and
    the parser is as it was. *)
Theorem parseCategory_rows (c : Category) (locale : string)
    (r : ResourceParser) (row row1 row2 : Row) (rows : list Row) :
  let new := mkCategory (cat_ID c) (cat_Order c) (field row "name") locale [] in
  let n := length (list_ (categories r)) in
  (∃ r', parseCategory c (mkResource [row]) locale r
         = Val (mkReturn None r' (mkResource [row]))
       ∧ list_ (categories r') = list_ (categories r) ++ [new]
       ∧ index (categories r')
         = <[(cat_ID c, locale) := n]> (index (categories r))
       ∧ getCat (cat_ID c) locale r' = Val (Some (n, new))
       ∧ forms r' = forms r)
  ∧ parseCategory c (mkResource []) locale r
    = Val (mkReturn (Some ErrContent) r (mkResource []))
  ∧ parseCategory c (mkResource (row1 :: row2 :: rows)) locale r
    = Val (mkReturn (Some ErrContent) r (mkResource (row1 :: row2 :: rows)))
  ∧ kind ErrContent = ShapeMismatch.
Proof.
  intros new n. split; [|repeat split].
  exists (addCat new r). repeat split.
  apply (getCat_addCat new r).
Qed.

(** C9.  Merging the same Category twice, one row each time, succeeds
    twice and leaves two entries at the end of the registry's list, in the
    order of the two merges; the index maps (id, locale) to the position
    of the second only, [getCat] returns the second, and [Categories]
    lists both for the locale, after the earlier categories of that
    locale. *)
Theorem parseCategory_twice (c : Category) (locale : string)
    (r : ResourceParser) (row1 row2 : Row) :
  let c1 := mkCategory (cat_ID c) (cat_Order c) (field row1 "name") locale [] in
  let c2 := mkCategory (cat_ID c) (cat_Order c) (field row2 "name") locale [] in
  let n := length (list_ (categories r)) in
  ∃ r1 r2,
    parseCategory c (mkResource [row1]) locale r
    = Val (mkReturn None r1 (mkResource [row1]))
    ∧ parseCategory c (mkResource [row2]) locale r1
      = Val (mkReturn None r2 (mkResource [row2]))
    ∧ list_ (categories r2) = list_ (categories r) ++ [c1; c2]
    ∧ list_ (categories r2) !! n = Some c1
    ∧ index (categories r2) !! (cat_ID c, locale) = Some (S n)
    ∧ getCat (cat_ID c) locale r2 = Val (Some (S n, c2))
    ∧ Categories r2 !! locale
      = Some (filter (λ k, Locale k = locale) (list_ (categories r))
              ++ [c1; c2]).
Proof.
  intros c1 c2 n.
  exists (addCat c1 r), (addCat c2 (addCat c1 r)).
  assert (Hlen : length (list_ (categories (addCat c1 r))) = S n).
  { cbn. rewrite length_app. cbn. subst n. lia. }
  assert (Hlist : list_ (categories (addCat c2 (addCat c1 r)))
                  = list_ (categories r) ++ [c1; c2]).
  { cbn. rewrite <- app_assoc. reflexivity. }
  split; [reflexivity|]. split; [reflexivity|].
  split; [exact Hlist|]. split; [|split; [|split]].
  - rewrite Hlist. apply list_lookup_middle. reflexivity.
  - cbn [addCat index categories cat_ID Locale c2].
    rewrite lookup_insert_eq. f_equal. exact Hlen.
  - rewrite <- Hlen. apply (getCat_addCat c2 (addCat c1 r)).
  - rewrite Categories_lookup, Hlist, filter_app.
    rewrite (filter_cons_True _ c1) by reflexivity.
    rewrite (filter_cons_True _ c2) by reflexivity.
    rewrite filter_nil.
    destruct (filter _ (list_ (categories r))); reflexivity.
Qed.

(** The sample parsers are what the merges build. *)
Lemma sample_parsers :
  parseCategory Sample.catA (mkResource [Sample.row [("name", "A")]]) "en"
    NewResourceParser
  = Val (mkReturn None Sample.withA (mkResource [Sample.row [("name", "A")]]))
  ∧ parseSubcategory Sample.subS (mkResource [Sample.row [("name", "S")]]) "en"
      Sample.withA
    = Val (mkReturn None Sample.withAS
             (mkResource [Sample.row [("name", "S")]]))
  ∧ parseDifficulty Sample.difD
      (mkResource [Sample.row [("description", "D")]]) "en" Sample.withAS
    = Val (mkReturn None Sample.withASD
             (mkResource [Sample.row [("description", "D")]])).
Proof. repeat split; vm_compute; reflexivity. Qed.

(** ** Subcategory and difficulty merges *)

(** C1, at an input where the code departs from it.  Category [a] is
    registered for [en] and category [b] never is.  Merging a subcategory
    whose parent is [b] returns no error and appends the subcategory to
    [a]; merging a difficulty whose grandparent is [b] and whose parent
    has the identifier of a subcategory of [a] returns no error and
    appends the difficulty to that subcategory of [a].  Only for a parser
    with no category at all is the missing ancestor reported. *)
Theorem merge_under_unregistered_category :
  getCat "b" "en" Sample.withA = Val (Some (0, mkCategory "a" 1 "A" "en" []))
  ∧ (∃ r', parseSubcategory Sample.subT
             (mkResource [Sample.row [("name", "T")]]) "en" Sample.withA
           = Val (mkReturn None r' (mkResource [Sample.row [("name", "T")]]))
         ∧ list_ (categories r')
           = [mkCategory "a" 1 "A" "en" [mkSubcategory "t" 1 "T" []]])
  ∧ (∃ r', parseDifficulty Sample.difE
             (mkResource [Sample.row [("description", "E")]]) "en"
             Sample.withAS
           = Val (mkReturn None r'
                    (mkResource [Sample.row [("description", "E")]]))
         ∧ list_ (categories r')
           = [mkCategory "a" 1 "A" "en"
                [mkSubcategory "s" 1 "S" [mkDifficulty "e" "E" [] None]]])
  ∧ parseSubcategory Sample.subT (mkResource [Sample.row [("name", "T")]])
      "en" NewResourceParser
    = Val (mkReturn (Some (ErrNoCat "b" "en")) NewResourceParser
             (mkResource [Sample.row [("name", "T")]])).
Proof.
  split; [vm_compute; reflexivity|].
  split; [eexists; split; vm_compute; reflexivity|].
  split; [eexists; split; vm_compute; reflexivity|].
  vm_compute; reflexivity.
Qed.

(** ** Form merges *)

(** The items that the inner loop of [parseForm] inspects are those of
    the screen under construction, which [make] has just filled with zero
    values: each of them passes the placeholder test, and no row is
    consumed. *)
Lemma formItems_zero (i j k : nat) (m : list Row) :
  formItems i j (replicate k zeroFormInput) m = Done m.
Proof.
  revert j. induction k as [|k IH]; intros j; [reflexivity|].
  cbn. apply IH.
Qed.

(** The screens a form merge builds hold zero-valued items only, as many
    as the schema's screen has slots. *)
Lemma formScreens_items (n i : nat) (fss : list FormScreen) (m : list Row)
    (screens : list FormScreen) :
  formScreens n i fss m = Done screens →
  Items <$> screens
  = (λ fs, replicate (length (Items fs)) zeroFormInput) <$> fss.
Proof.
  revert i m screens. induction fss as [|fs fss IH]; intros i m screens.
  - cbn. intros [= <-]. reflexivity.
  - cbn [formScreens].
    destruct (formHeader n i fs m) as [[name m1]| |]; cbn; try discriminate.
    rewrite formItems_zero. cbn.
    destruct (formScreens n (S i) fss m1) as [rest| |] eqn:E; cbn;
      try discriminate.
    intros [= <-]. cbn. f_equal. exact (IH _ _ _ E).
Qed.



(** C2, at the input of the claim, where the code departs from it.  The
    merge succeeds and stores a form whose one screen is named [S1], but
    the screen holds two items and both are zero-valued: the real slot is
    not filled from the row [label: L, hint: H, options: a;b], which is
    never consumed (the merge without that row stores the same form). *)
Theorem parseForm_alignment_scenario :
  ∃ r', parseForm Sample.formF Sample.formRows "en" NewResourceParser
        = Val (mkReturn None r' Sample.formRows)
      ∧ forms r' !! ("f", "en")
        = Some (mkForm "f" "F" "en"
                  [mkFormScreen "S1" [zeroFormInput; zeroFormInput]])
      ∧ parseForm Sample.formF (mkResource (take 2 (Content Sample.formRows)))
          "en" NewResourceParser
        = Val (mkReturn None r'
                 (mkResource (take 2 (Content Sample.formRows)))).
Proof.
  eexists. split; [vm_compute; reflexivity|].
  split; vm_compute; reflexivity.
Qed.

(** C3, at the input where the code departs from it.  A form merge with
    an empty Resource panics, whatever the schema, the locale and the
    parser: [res.Content[0]] is read before any test of the length. *)
Theorem parseForm_empty_resource (f : Form) (locale : string)
    (r : ResourceParser) :
  parseForm f (mkResource []) locale r = Panic.
Proof. reflexivity. Qed.

(** ** The ancestor chain *)

(** A chain that resolves leads to a difficulty of the registry, which
    has the identifier that was looked up. *)
Lemma resolveDif_difAt catID subID difID locale r ci si di :
  resolveDif catID subID difID locale r = Some (ci, si, di) →
  ∃ dif, difAt ci si di r = Some dif ∧ dif_ID dif = difID.
Proof.
  unfold resolveDif, getCat, difAt.
  destruct (decide _); [discriminate|].
  destruct (list_ (categories r) !! _) as [cat|] eqn:Ecat; [|discriminate].
  destruct (Category_Sub cat subID) as [[si' sub]|] eqn:Esub; [|discriminate].
  destruct (Subcategory_Difficulty sub difID) as [[di' dif]|] eqn:Edif;
    [|discriminate].
  intros [= <- <- <-].
  apply list_find_Some in Esub as (Hsub & _ & _).
  apply list_find_Some in Edif as (Hdif & Hid & _).
  exists dif. rewrite Ecat. cbn. rewrite Hsub. cbn. auto.
Qed.

(** Writing through the pointer to a difficulty changes that
    difficulty. *)
Lemma difAt_upd ci si di (f : Difficulty → Difficulty) r dif :
  difAt ci si di r = Some dif →
  difAt ci si di (updCat ci (updSub si (updDif di f)) r) = Some (f dif).
Proof.
  unfold difAt, updCat. cbn.
  rewrite list_lookup_alter_eq.
  destruct (list_ (categories r) !! ci) as [cat|]; [cbn|discriminate].
  rewrite list_lookup_alter_eq.
  destruct (subcategories cat !! si) as [sub|]; [cbn|discriminate].
  rewrite list_lookup_alter_eq. intros ->. reflexivity.
Qed.

(** ** Checklist merges *)

(** [dropNil] removes the nil rows at the front, and nothing else. *)
Lemma dropNil_spec (rows : list Row) :
  ∃ n, rows = replicate n None ++ dropNil rows
       ∧ head (dropNil rows) ≠ Some None.
Proof.
  induction rows as [|[m|] rows (n & E & H)].
  - exists 0. split; [reflexivity|discriminate].
  - exists 0. split; [reflexivity|discriminate].
  - exists (S n). cbn. split; [congruence|exact H].
Qed.

(** The loop that builds the checklist pairs the rows with the schema's
    checks from position [i] on, and does not run out of checks when
    there are enough of them. *)
Lemma addChecks_zip (schema : list Check) (i : nat) (rows : list Row)
    (cl : Checklist) :
  i + length rows ≤ length schema →
  addChecks schema i rows cl
  = Val (mkChecklist (Checks cl ++ zip_with pairCheck rows (drop i schema))).
Proof.
  revert i cl. induction rows as [|row rows IH]; intros i cl Hlen.
  - cbn. rewrite app_nil_r. destruct cl; reflexivity.
  - cbn in Hlen. cbn [addChecks].
    destruct (schema !! i) as [k|] eqn:Ek.
    + rewrite IH by lia. cbn.
      rewrite (drop_S _ _ _ Ek). cbn. rewrite <- app_assoc. reflexivity.
    + apply lookup_ge_None in Ek. lia.
Qed.

(** A checklist merge whose chain resolves. *)
Lemma parseChecklist_resolved (c : ChecklistNode) (res : Resource)
    (locale : string) (r : ResourceParser) (ci si di : nat) :
  resolveDif (cat_ID (sub_parent (dif_parent (chk_parent c))))
    (sub_ID (sub_node (dif_parent (chk_parent c))))
    (dif_ID (dif_node (chk_parent c))) locale r = Some (ci, si, di) →
  let rows := dropNil (Content res) in
  let schema := Checks (chk_node c) in
  parseChecklist c res locale r
  = if decide (length rows = length schema)
    then Val (mkReturn None
                (updCat ci
                   (updSub si
                      (updDif di
                         (λ dif, Difficulty_SetChecks dif
                                   (mkChecklist (zip_with pairCheck rows schema)))))
                   r)
                (mkResource rows))
    else Val (mkReturn (Some (ErrChecks (length rows) (length schema))) r
                (mkResource rows)).
Proof.
  unfold resolveDif, parseChecklist.
  destruct (getCat _ locale r) as [[[ci' cat]|]|]; try discriminate.
  destruct (Category_Sub cat _) as [[si' sub]|]; [|discriminate].
  destruct (Subcategory_Difficulty sub _) as [[di' dif]|]; [|discriminate].
  intros [= <- <- <-]. cbn.
  destruct (decide _) as [E|E].
  - rewrite E, Nat.eqb_refl. cbn.
    rewrite addChecks_zip by (cbn; lia). reflexivity.
  - apply Nat.eqb_neq in E. rewrite E. reflexivity.
Qed.

(** C4.  For a Checklist merge whose ancestor chain resolves to the
    difficulty at position (ci, si, di): the rows that count are the rows
    of the Resource without the nil rows at its front; when their number
    differs from the number of the schema's checks the merge returns a
    shape mismatch and the parser is as it was; when the two numbers are
    equal the merge succeeds, and the difficulty is afterwards the one it
    was with, for its checklist, the checks made of the trimmed [text] of
    each row and the [NoCheck] flag of the schema's check at the same
    position, in order, whatever checklist it had before. *)
Theorem parseChecklist_merge (c : ChecklistNode) (res : Resource)
    (locale : string) (r : ResourceParser) (ci si di : nat) :
  resolveDif (cat_ID (sub_parent (dif_parent (chk_parent c))))
    (sub_ID (sub_node (dif_parent (chk_parent c))))
    (dif_ID (dif_node (chk_parent c))) locale r = Some (ci, si, di) →
  let rows := dropNil (Content res) in
  let schema := Checks (chk_node c) in
  let cl :=
    mkChecklist
      (zip_with (λ row k, mkCheck (TrimSpace (field row "text")) (NoCheck k))
         rows schema) in
  (∃ n, Content res = replicate n None ++ rows ∧ head rows ≠ Some None)
  ∧ (length rows ≠ length schema →
     ∃ e, parseChecklist c res locale r
          = Val (mkReturn (Some e) r (mkResource rows))
        ∧ kind e = ShapeMismatch)
  ∧ (length rows = length schema →
     ∃ dif r', difAt ci si di r = Some dif
       ∧ parseChecklist c res locale r
         = Val (mkReturn None r' (mkResource rows))
       ∧ r' = updCat ci
                (updSub si (updDif di (λ d, Difficulty_SetChecks d cl))) r
       ∧ difAt ci si di r'
         = Some (mkDifficulty (dif_ID dif) (Descr dif) (items dif) (Some cl))).
Proof.
  intros Hres rows schema cl.
  pose proof (parseChecklist_resolved c res locale r ci si di Hres) as Hp.
  cbn zeta in Hp. fold rows schema in Hp.
  split; [apply dropNil_spec|]. split.
  - intros Hne. rewrite decide_False in Hp by exact Hne.
    eexists. split; [exact Hp|reflexivity].
  - intros Heq. rewrite decide_True in Hp by exact Heq.
    destruct (resolveDif_difAt _ _ _ _ _ _ _ _ Hres) as (dif & Hdif & _).
    exists dif. eexists. split; [exact Hdif|]. split; [exact Hp|].
    split; [reflexivity|].
    apply (difAt_upd ci si di (λ d, Difficulty_SetChecks d cl) r dif Hdif).
Qed.

(** C10.  A Checklist merge whose ancestor chain resolves returns, and
    the caller's Resource then holds the rows it held without the nil
    rows at the front, whether the merge succeeded or not; when the
    number of rows left differs from the number of the schema's checks,
    the merge has returned the count error and has changed nothing
    else. *)
Theorem parseChecklist_reslices (c : ChecklistNode) (res : Resource)
    (locale : string) (r : ResourceParser) (ci si di : nat) :
  resolveDif (cat_ID (sub_parent (dif_parent (chk_parent c))))
    (sub_ID (sub_node (dif_parent (chk_parent c))))
    (dif_ID (dif_node (chk_parent c))) locale r = Some (ci, si, di) →
  ∃ out, parseChecklist c res locale r = Val out
    ∧ Content (resource out) = dropNil (Content res)
    ∧ (∃ n, Content res = replicate n None ++ Content (resource out)
            ∧ head (Content (resource out)) ≠ Some None)
    ∧ (length (dropNil (Content res)) ≠ length (Checks (chk_node c)) →
       err out = Some (ErrChecks (length (dropNil (Content res)))
                         (length (Checks (chk_node c))))
       ∧ parser out = r).
Proof.
  intros Hres.
  pose proof (parseChecklist_resolved c res locale r ci si di Hres) as Hp.
  cbn zeta in Hp.
  destruct (decide _) as [E|E]; eexists; (split; [exact Hp|]); cbn;
    (split; [reflexivity|]); (split; [apply dropNil_spec|]).
  - intros Hne. contradiction.
  - intros _. split; reflexivity.
Qed.

(** ** Item merges *)

Lemma append_nil_l (s : string) : "" +:+ s = s.
Proof. reflexivity. Qed.

Lemma append_cons (x : ascii) (a b : string) :
  String x a +:+ b = String x (a +:+ b).
Proof. reflexivity. Qed.

Lemma append_nil_r (s : string) : s +:+ "" = s.
Proof.
  induction s as [|x s IH]; [reflexivity|].
  rewrite append_cons, IH. reflexivity.
Qed.

Lemma append_assoc (a b c : string) : (a +:+ b) +:+ c = a +:+ b +:+ c.
Proof.
  induction a as [|x a IH]; [reflexivity|].
  rewrite !append_cons, IH. reflexivity.
Qed.

Lemma isEmpty_true (s : string) : isEmpty s = true ↔ s = "".
Proof. destruct s; cbn; split; congruence. Qed.

Lemma isEmpty_false (s : string) : isEmpty s = false ↔ s ≠ "".
Proof. destruct s; cbn; split; congruence. Qed.

(** The loop over the paragraphs leaves in the buffer what the spec's
    words describe. *)
Lemma writeParagraph_join (sep buf : string) (rest : list Row) :
  fold_left (writeParagraph sep) rest buf
  = joinParagraphs sep buf ((λ v, TrimSpace (field v "body")) <$> rest).
Proof.
  revert buf. induction rest as [|v rest IH]; intros buf; [reflexivity|].
  cbn [fold_left fmap list_fmap joinParagraphs]. rewrite IH. f_equal.
  unfold writeParagraph. destruct buf; cbn [String.length Nat.eqb negb].
  - apply append_nil_l.
  - apply append_assoc.
Qed.

(** Once something has been accumulated, every further piece is
    preceded by the separator, empty pieces included. *)
Lemma joinParagraphs_nonempty (sep : string) (a : ascii) (acc : string)
    (pieces : list string) :
  joinParagraphs sep (String a acc) pieces
  = fold_left (λ buf p, buf +:+ sep +:+ p) pieces (String a acc).
Proof.
  revert acc. induction pieces as [|p pieces IH]; intros acc; [reflexivity|].
  cbn [joinParagraphs fold_left]. rewrite append_cons. apply IH.
Qed.

Lemma joinParagraphs_leading_empty (sep : string) (pieces : list string) :
  joinParagraphs sep "" ("" :: pieces) = joinParagraphs sep "" pieces.
Proof. reflexivity. Qed.

(** An item merge with at least one row whose chain resolves. *)
Lemma parseItem_resolved (sep : string) (i : ItemNode) (row0 : Row)
    (rest : list Row) (locale : string) (r : ResourceParser) (ci si di : nat) :
  resolveDif (cat_ID (sub_parent (dif_parent (item_parent i))))
    (sub_ID (sub_node (dif_parent (item_parent i))))
    (dif_ID (dif_node (item_parent i))) locale r = Some (ci, si, di) →
  let res := mkResource (row0 :: rest) in
  let attach (buf : string) :=
    Val (mkReturn None
           (updCat ci
              (updSub si
                 (updDif di
                    (λ dif, Difficulty_AddItem dif
                              (mkItem (item_ID (item_node i))
                                 (TrimSpace (field row0 "title")) buf
                                 (item_Order (item_node i))))))
              (withBuffer r buf))
           res) in
  parseItem sep i res locale r
  = if isEmpty (field row0 "body")
    then attach (joinParagraphs sep ""
                   ((λ v, TrimSpace (field v "body")) <$> rest))
    else match rest with
         | [] => attach (TrimSpace (field row0 "body"))
         | _ :: _ =>
             Val (mkReturn
                    (Some (ErrInvalidLegacy (dif_ID (dif_node (item_parent i)))
                             locale))
                    (withBuffer r "") res)
         end.
Proof.
  unfold resolveDif, parseItem.
  destruct (getCat _ locale r) as [[[ci' cat]|]|]; try discriminate.
  destruct (Category_Sub cat _) as [[si' sub]|]; [|discriminate].
  destruct (Subcategory_Difficulty sub _) as [[di' dif]|]; [|discriminate].
  intros [= <- <- <-]. cbn.
  destruct (isEmpty (field row0 "body")); cbn.
  - rewrite writeParagraph_join. reflexivity.
  - destruct rest; reflexivity.
Qed.

(** An item merge that returns no error has resolved its chain. *)
Lemma parseItem_success_resolves (sep : string) (i : ItemNode)
    (res : Resource) (locale : string) (r : ResourceParser) (out : Return) :
  parseItem sep i res locale r = Val out →
  err out = None →
  ∃ ci si di,
    resolveDif (cat_ID (sub_parent (dif_parent (item_parent i))))
      (sub_ID (sub_node (dif_parent (item_parent i))))
      (dif_ID (dif_node (item_parent i))) locale r = Some (ci, si, di).
Proof.
  unfold resolveDif, parseItem.
  destruct (Content res) as [|row0 rest].
  { intros [= <-]. discriminate. }
  destruct (getCat _ locale r) as [[[ci cat]|]|]; try discriminate.
  2:{ intros [= <-]. discriminate. }
  destruct (Category_Sub cat _) as [[si sub]|].
  2:{ intros [= <-]. discriminate. }
  destruct (Subcategory_Difficulty sub _) as [[di dif]|].
  2:{ intros [= <-]. discriminate. }
  eauto.
Qed.

Lemma difAt_withBuffer ci si di r buf :
  difAt ci si di (withBuffer r buf) = difAt ci si di r.
Proof. reflexivity. Qed.

(** C5.  For an Item merge whose first row has an empty [body]: the
    merge returns no error exactly when the ancestor chain resolves, and
    the item it then appends to the difficulty has for title the trimmed
    [title] of the first row and for body the trimmed [body] fields of
    the rows after the first, joined with the separator between a
    non-empty accumulated prefix and the next piece.  Two rows after the
    first whose [body] fields are [ p1 ] and [p2] give the body [p1],
    separator, [p2]. *)
Theorem parseItem_paragraph_mode (sep : string) (i : ItemNode) (row0 : Row)
    (rest : list Row) (locale : string) (r : ResourceParser) :
  field row0 "body" = "" →
  let res := mkResource (row0 :: rest) in
  let catID := cat_ID (sub_parent (dif_parent (item_parent i))) in
  let subID := sub_ID (sub_node (dif_parent (item_parent i))) in
  let difID := dif_ID (dif_node (item_parent i)) in
  let item :=
    mkItem (item_ID (item_node i)) (TrimSpace (field row0 "title"))
      (joinParagraphs sep "" ((λ v, TrimSpace (field v "body")) <$> rest))
      (item_Order (item_node i)) in
  let attached ci si di :=
    updCat ci (updSub si (updDif di (λ d, Difficulty_AddItem d item)))
      (withBuffer r (Body item)) in
  (∀ out, parseItem sep i res locale r = Val out → err out = None →
     ∃ ci si di dif,
       difAt ci si di r = Some dif ∧ dif_ID dif = difID
       ∧ out = mkReturn None (attached ci si di) res
       ∧ difAt ci si di (parser out)
         = Some (mkDifficulty (dif_ID dif) (Descr dif) (items dif ++ [item])
                   (checks dif)))
  ∧ (∀ ci si di, resolveDif catID subID difID locale r = Some (ci, si, di) →
       parseItem sep i res locale r
       = Val (mkReturn None (attached ci si di) res))
  ∧ (∀ rowA rowB, field rowA "body" = " p1 " → field rowB "body" = "p2" →
       rest = [rowA; rowB] → Body item = "p1" +:+ sep +:+ "p2").
Proof.
  intros Hbody res catID subID difID item attached.
  assert (Hok : ∀ ci si di,
             resolveDif catID subID difID locale r = Some (ci, si, di) →
             parseItem sep i res locale r
             = Val (mkReturn None (attached ci si di) res)).
  { intros ci si di Hres.
    pose proof (parseItem_resolved sep i row0 rest locale r ci si di Hres) as Hp.
    cbn zeta in Hp. rewrite Hbody in Hp. exact Hp. }
  split; [|split; [exact Hok|]].
  - intros out Hout Herr.
    destruct (parseItem_success_resolves sep i res locale r out Hout Herr)
      as (ci & si & di & Hres).
    destruct (resolveDif_difAt _ _ _ _ _ _ _ _ Hres) as (dif & Hdif & Hid).
    exists ci, si, di, dif. split; [exact Hdif|]. split; [exact Hid|].
    rewrite (Hok ci si di Hres) in Hout. injection Hout as <-.
    split; [reflexivity|].
    apply (difAt_upd ci si di (λ d, Difficulty_AddItem d item)
             (withBuffer r (Body item)) dif).
    exact Hdif.
  - intros rowA rowB HA HB ->. cbn. rewrite HA, HB. reflexivity.
Qed.

(** C6, as amended.  For an Item merge whose ancestor chain resolves and
    whose first row has a non-empty [body]: with that row alone the merge
    succeeds and appends to the difficulty an item whose body is the
    trimmed [body] of the row and whose title is its trimmed [title];
    with further rows the merge returns a shape mismatch, and the
    registry and the form store are as they were. *)
Theorem parseItem_legacy_mode (sep : string) (i : ItemNode) (row0 : Row)
    (locale : string) (r : ResourceParser) (ci si di : nat) :
  resolveDif (cat_ID (sub_parent (dif_parent (item_parent i))))
    (sub_ID (sub_node (dif_parent (item_parent i))))
    (dif_ID (dif_node (item_parent i))) locale r = Some (ci, si, di) →
  field row0 "body" ≠ "" →
  let item :=
    mkItem (item_ID (item_node i)) (TrimSpace (field row0 "title"))
      (TrimSpace (field row0 "body")) (item_Order (item_node i)) in
  (∃ dif r', difAt ci si di r = Some dif
     ∧ parseItem sep i (mkResource [row0]) locale r
       = Val (mkReturn None r' (mkResource [row0]))
     ∧ r' = updCat ci (updSub si (updDif di (λ d, Difficulty_AddItem d item)))
              (withBuffer r (Body item))
     ∧ difAt ci si di r'
       = Some (mkDifficulty (dif_ID dif) (Descr dif) (items dif ++ [item])
                 (checks dif)))
  ∧ (∀ row1 rest,
       ∃ e r', parseItem sep i (mkResource (row0 :: row1 :: rest)) locale r
               = Val (mkReturn (Some e) r' (mkResource (row0 :: row1 :: rest)))
         ∧ kind e = ShapeMismatch
         ∧ categories r' = categories r
         ∧ forms r' = forms r).
Proof.
  intros Hres Hbody item. apply isEmpty_false in Hbody. split.
  - pose proof (parseItem_resolved sep i row0 [] locale r ci si di Hres) as Hp.
    cbn zeta in Hp. rewrite Hbody in Hp.
    destruct (resolveDif_difAt _ _ _ _ _ _ _ _ Hres) as (dif & Hdif & _).
    exists dif. eexists. split; [exact Hdif|]. split; [exact Hp|].
    split; [reflexivity|].
    apply (difAt_upd ci si di (λ d, Difficulty_AddItem d item)
             (withBuffer r (Body item)) dif).
    exact Hdif.
  - intros row1 rest.
    pose proof (parseItem_resolved sep i row0 (row1 :: rest) locale r ci si di
                  Hres) as Hp.
    cbn zeta in Hp. rewrite Hbody in Hp.
    eexists. eexists. split; [exact Hp|]. repeat split.
Qed.

(** C6, as the claim states it, fails where the ancestor chain does not
    resolve: in a parser without categories, the merge of an item with one
    row whose [body] is not empty does not succeed, and with a second row
    it is not a shape mismatch that it returns: both return the not-found
    error of the category lookup. *)
Lemma parseItem_legacy_unresolved :
  field (Sample.row [("title", "T"); ("body", " legacy ")]) "body" ≠ ""
  ∧ parseItem Sample.sep Sample.itemI Sample.legacyRows "en" NewResourceParser
    = Val (mkReturn (Some (ErrNoCat "s" "en")) NewResourceParser
             Sample.legacyRows)
  ∧ parseItem Sample.sep Sample.itemI Sample.legacyRows2 "en" NewResourceParser
    = Val (mkReturn (Some (ErrNoCat "s" "en")) NewResourceParser
             Sample.legacyRows2)
  ∧ kind (ErrNoCat "s" "en") = NotFound.
Proof.
  split; [vm_compute; discriminate|].
  repeat split; vm_compute; reflexivity.
Qed.

(** ** Errors leave the stores alone *)

(** Closes a branch in which the call has returned: either no error was
    returned, or the parser handed back has the stores of the one
    received. *)
Ltac returned :=
  intros [= <-]; cbn; intros Herr; try discriminate Herr;
  split; reflexivity.

(** C7.  Whatever the kind of node, when [Parse] returns an error the
    category registry (the index and the list, with every category's
    subtree) and the form store are those of the parser before the
    call. *)
Theorem Parse_error_frame (sep : string) (cmp : Component) (res : Resource)
    (locale : string) (r : ResourceParser) (out : Return) (e : error) :
  Parse sep cmp res locale r = Val out →
  err out = Some e →
  categories (parser out) = categories r ∧ forms (parser out) = forms r.
Proof.
  destruct cmp as [f|c|s|d|i|c|]; cbn [Parse].
  - unfold parseForm.
    destruct (Content res) as [|row0 m]; [discriminate|].
    destruct (formScreens _ 0 (Screens f) m); [returned|returned|discriminate].
  - unfold parseCategory.
    destruct (Content res) as [|row [|row1 rows]]; returned.
  - unfold parseSubcategory.
    destruct (Content res) as [|row [|row1 rows]]; try returned.
    destruct (getCat _ locale r) as [[[ci cat]|]|]; [returned|returned|discriminate].
  - unfold parseDifficulty.
    destruct (Content res) as [|row [|row1 rows]]; try returned.
    cbn zeta.
    destruct (getCat _ locale r) as [[[ci cat]|]|]; [|returned|discriminate].
    destruct (Category_Sub cat _) as [[si sub]|]; returned.
  - unfold parseItem.
    destruct (Content res) as [|row0 rest]; [returned|].
    cbn zeta.
    destruct (getCat _ locale r) as [[[ci cat]|]|]; [|returned|discriminate].
    destruct (Category_Sub cat _) as [[si sub]|]; [|returned].
    destruct (Subcategory_Difficulty sub _) as [[di dif]|]; [|returned].
    destruct (negb (isEmpty (field row0 "body"))); [|returned].
    destruct rest; returned.
  - unfold parseChecklist. cbn zeta.
    destruct (getCat _ locale r) as [[[ci cat]|]|]; [|returned|discriminate].
    destruct (Category_Sub cat _) as [[si sub]|]; [|returned].
    destruct (Subcategory_Difficulty sub _) as [[di dif]|]; [|returned].
    destruct (negb _); [returned|].
    destruct (addChecks _ 0 _ _); [returned|discriminate].
  - returned.
Qed.

(** An item merge that fails on a legacy row followed by another row has
    nevertheless emptied the buffer. *)
Lemma parseItem_error_resets_buffer :
  ∃ r1 out,
    parseItem Sample.sep Sample.itemI Sample.legacyRows "en" Sample.withASD
    = Val (mkReturn None r1 Sample.legacyRows)
    ∧ buffer r1 = "legacy"
    ∧ parseItem Sample.sep Sample.itemI Sample.legacyRows2 "en" r1 = Val out
    ∧ err out = Some (ErrInvalidLegacy "d" "en")
    ∧ buffer (parser out) = "".
Proof.
  eexists. eexists. split; [vm_compute; reflexivity|].
  split; [reflexivity|]. split; [vm_compute; reflexivity|].
  split; reflexivity.
Qed.

(** ** The theorems at sample inputs *)

Lemma parseChecklist_merge_sample :
  ∃ r', parseChecklist Sample.checksC Sample.checkRows "en" Sample.withASD
        = Val (mkReturn None r'
                 (mkResource [Sample.row [("text", " a ")];
                              Sample.row [("text", "b")]]))
      ∧ difAt 0 0 0 r'
        = Some (mkDifficulty "d" "D" []
                  (Some (mkChecklist [mkCheck "a" false; mkCheck "b" true]))).
Proof.
  assert (Hres : resolveDif "a" "s" "d" "en" Sample.withASD = Some (0, 0, 0))
    by (vm_compute; reflexivity).
  destruct (parseChecklist_merge Sample.checksC Sample.checkRows "en"
              Sample.withASD 0 0 0 Hres) as (_ & _ & Hok).
  destruct (Hok eq_refl) as (dif & r' & Hdif & Hp & _ & Hd').
  exists r'. split; [exact Hp|].
  assert (Hd : dif = mkDifficulty "d" "D" [] None)
    by (vm_compute in Hdif; congruence).
  subst dif. exact Hd'.
Defined.

Lemma parseChecklist_reslices_sample :
  ∃ out, parseChecklist Sample.checksC Sample.checkRows3 "en" Sample.withASD
         = Val out
    ∧ err out = Some (ErrChecks 3 2)
    ∧ parser out = Sample.withASD
    ∧ Content (resource out)
      = [Sample.row [("text", "a")]; Sample.row [("text", "b")];
         Sample.row [("text", "c")]]
    ∧ resource out ≠ Sample.checkRows3.
Proof.
  assert (Hres : resolveDif "a" "s" "d" "en" Sample.withASD = Some (0, 0, 0))
    by (vm_compute; reflexivity).
  destruct (parseChecklist_reslices Sample.checksC Sample.checkRows3 "en"
              Sample.withASD 0 0 0 Hres) as (out & Hp & Hc & _ & Hfail).
  assert (Hne : 3 ≠ 2) by discriminate.
  destruct (Hfail Hne) as [He Hr].
  exists out. split; [exact Hp|]. split; [exact He|]. split; [exact Hr|].
  split; [exact Hc|].
  intros E. rewrite E in Hc. discriminate Hc.
Defined.

Lemma parseItem_paragraph_mode_sample :
  ∃ r', parseItem Sample.sep Sample.itemI Sample.paragraphRows "en"
          Sample.withASD
        = Val (mkReturn None r' Sample.paragraphRows)
      ∧ difAt 0 0 0 r'
        = Some (mkDifficulty "d" "D"
                  [mkItem "i" "T" ("p1" +:+ Sample.sep +:+ "p2") 1] None).
Proof.
  destruct (parseItem_paragraph_mode Sample.sep Sample.itemI
              (Sample.row [("title", "T")])
              [Sample.row [("body", " p1 ")]; Sample.row [("body", "p2")]]
              "en" Sample.withASD eq_refl) as (_ & Hok & _).
  eexists. split.
  - apply (Hok 0 0 0). vm_compute; reflexivity.
  - vm_compute; reflexivity.
Defined.

Lemma parseItem_legacy_mode_sample :
  (∃ r', parseItem Sample.sep Sample.itemI Sample.legacyRows "en"
           Sample.withASD
         = Val (mkReturn None r' Sample.legacyRows)
       ∧ difAt 0 0 0 r'
         = Some (mkDifficulty "d" "D" [mkItem "i" "T" "legacy" 1] None))
  ∧ (∃ e r', parseItem Sample.sep Sample.itemI Sample.legacyRows2 "en"
               Sample.withASD
             = Val (mkReturn (Some e) r' Sample.legacyRows2)
           ∧ kind e = ShapeMismatch
           ∧ categories r' = categories Sample.withASD).
Proof.
  assert (Hres : resolveDif "a" "s" "d" "en" Sample.withASD = Some (0, 0, 0))
    by (vm_compute; reflexivity).
  split.
  - assert (Hbody : field (Sample.row [("title", "T"); ("body", " legacy ")])
                      "body" ≠ "") by (vm_compute; discriminate).
    destruct (parseItem_legacy_mode Sample.sep Sample.itemI _ "en"
                Sample.withASD 0 0 0 Hres Hbody)
      as ((dif & r' & Hdif & Hp & _ & Hd') & _).
    exists r'. split; [exact Hp|].
    assert (Hd : dif = mkDifficulty "d" "D" [] None)
      by (vm_compute in Hdif; congruence).
    subst dif. rewrite Hd'. vm_compute. reflexivity.
  - assert (Hbody : field (Sample.row [("title", "T"); ("body", "x")])
                      "body" ≠ "") by (vm_compute; discriminate).
    destruct (parseItem_legacy_mode Sample.sep Sample.itemI _ "en"
                Sample.withASD 0 0 0 Hres Hbody) as (_ & Hmany).
    destruct (Hmany (Sample.row [("body", "y")]) [])
      as (e & r' & Hp & Hk & Hc & _).
    exists e, r'. split; [exact Hp|]. split; [exact Hk|exact Hc].
Defined.

Lemma Parse_error_frame_sample :
  ∃ out, Parse Sample.sep (CItem Sample.itemI) Sample.legacyRows2 "en"
           Sample.withASD = Val out
    ∧ err out = Some (ErrInvalidLegacy "d" "en")
    ∧ categories (parser out) = categories Sample.withASD
    ∧ forms (parser out) = forms Sample.withASD.
Proof.
  eexists. split; [vm_compute; reflexivity|]. split; [reflexivity|].
  eapply (Parse_error_frame Sample.sep (CItem Sample.itemI) Sample.legacyRows2
            "en" Sample.withASD).
  - vm_compute; reflexivity.
  - reflexivity.
Defined.

(** ** [splitSlug], properties *)

Lemma stripPrefix_cons (a b : ascii) (p s : string) :
  stripPrefix (String a p) (String b s)
  = if Ascii.eqb a b then stripPrefix p s else None.
Proof. reflexivity. Qed.

Lemma stripPrefix_length (p s rest : string) :
  stripPrefix p s = Some rest →
  String.length s = String.length p + String.length rest.
Proof.
  revert s. induction p as [|a p IH]; intros s; cbn.
  - intros [= ->]. reflexivity.
  - destruct s as [|b s]; [discriminate|].
    destruct (Ascii.eqb a b); [|discriminate].
    intros H. cbn. rewrite (IH _ H). reflexivity.
Qed.

(** Fuel beyond the length of the string changes nothing. *)
Lemma replaceFrom_fuel (o : ascii) (old' new : string) (n m : nat) (s : string) :
  String.length s ≤ n → String.length s ≤ m →
  replaceFrom n (String o old') new s = replaceFrom m (String o old') new s.
Proof.
  revert m s. induction n as [|n IH]; intros m s Hn Hm.
  - destruct s; [|cbn in Hn; lia]. destruct m; reflexivity.
  - destruct m as [|m].
    + destruct s; [|cbn in Hm; lia]. reflexivity.
    + cbn [replaceFrom].
      destruct (stripPrefix (String o old') s) as [rest|] eqn:E.
      * apply stripPrefix_length in E. cbn in E.
        rewrite (IH m rest) by lia. reflexivity.
      * destruct s as [|c s]; [reflexivity|]. cbn in Hn, Hm.
        rewrite (IH m s) by lia. reflexivity.
Qed.

Lemma Replace_nil (o : ascii) (old' new : string) :
  Replace "" (String o old') new = "".
Proof. reflexivity. Qed.

(** At an occurrence of [old], [new] is written and the scan goes on
    after the occurrence. *)
Lemma Replace_match (o : ascii) (old' new s rest : string) :
  stripPrefix (String o old') s = Some rest →
  Replace s (String o old') new = new +:+ Replace rest (String o old') new.
Proof.
  intros E. unfold Replace.
  pose proof (stripPrefix_length _ _ _ E) as Hlen. cbn in Hlen.
  destruct (String.length s) as [|n] eqn:En; [lia|].
  cbn [replaceFrom]. rewrite E.
  rewrite (replaceFrom_fuel o old' new n (String.length rest) rest) by lia.
  reflexivity.
Qed.

(** Elsewhere the byte is copied. *)
Lemma Replace_copy (old new : string) (c : ascii) (s : string) :
  stripPrefix old (String c s) = None →
  Replace (String c s) old new = String c (Replace s old new).
Proof. intros E. unfold Replace. cbn [String.length replaceFrom]. rewrite E. reflexivity. Qed.

(** A stretch of bytes none of which begins [old] is copied. *)
Lemma Replace_skip (o : ascii) (old' new g t : string) :
  allChars (λ c, negb (Ascii.eqb o c)) g = true →
  Replace (g +:+ t) (String o old') new
  = g +:+ Replace t (String o old') new.
Proof.
  induction g as [|c g IH]; cbn [allChars]; intros H; [reflexivity|].
  apply andb_prop in H as [Hc Hg].
  rewrite !append_cons, Replace_copy, (IH Hg); [reflexivity|].
  rewrite stripPrefix_cons. apply negb_true_iff in Hc. rewrite Hc.
  reflexivity.
Qed.

Lemma allChars_impl (p q : ascii → bool) (s : string) :
  (∀ c, p c = true → q c = true) → allChars p s = true → allChars q s = true.
Proof.
  intros Hpq. induction s as [|c s IH]; cbn; [reflexivity|].
  intros H. apply andb_prop in H as [Hc Hs].
  rewrite (Hpq c Hc), (IH Hs). reflexivity.
Qed.

Lemma plain_no_underscore (s : string) :
  plain s = true → allChars (λ c, negb (Ascii.eqb "_" c)) s = true.
Proof.
  apply allChars_impl. intros c H. apply andb_prop in H as [H _].
  rewrite Ascii.eqb_sym. exact H.
Qed.

Lemma plain_no_bar (s : string) :
  plain s = true → allChars (λ c, negb (Ascii.eqb "|" c)) s = true.
Proof.
  apply allChars_impl. intros c H. apply andb_prop in H as [_ H].
  rewrite Ascii.eqb_sym. exact H.
Qed.

Lemma Replace_plain (o : ascii) (old' new g : string) :
  allChars (λ c, negb (Ascii.eqb o c)) g = true →
  Replace g (String o old') new = g.
Proof.
  intros H. rewrite <- (append_nil_r g) at 1.
  rewrite (Replace_skip o old' new g "" H), Replace_nil. apply append_nil_r.
Qed.

(** [Split] gives at least one piece. *)
Lemma Split_cons (s : string) (sep : ascii) :
  ∃ h tl, Split s sep = h :: tl.
Proof.
  induction s as [|c s (h & tl & E)]; cbn; [eauto|].
  destruct (Ascii.eqb c sep); [eauto|]. rewrite E. eauto.
Qed.

(** A stretch without the separator stays in front of the first piece. *)
Lemma Split_skip (sep : ascii) (g t h : string) (tl : list string) :
  allChars (λ c, negb (Ascii.eqb sep c)) g = true →
  Split t sep = h :: tl →
  Split (g +:+ t) sep = (g +:+ h) :: tl.
Proof.
  intros Hg Ht. induction g as [|c g IH]; [exact Ht|].
  cbn [allChars] in Hg. apply andb_prop in Hg as [Hc Hg].
  rewrite !append_cons. cbn [Split].
  apply negb_true_iff in Hc. rewrite Ascii.eqb_sym in Hc.
  rewrite Hc, (IH Hg). reflexivity.
Qed.

Lemma Split_plain (sep : ascii) (g : string) :
  allChars (λ c, negb (Ascii.eqb sep c)) g = true → Split g sep = [g].
Proof.
  intros H. rewrite <- (append_nil_r g) at 1.
  rewrite (Split_skip sep g "" "" [] H eq_refl), append_nil_r. reflexivity.
Qed.

Lemma concat_cons2 (sep g g' : string) (segs : list string) :
  String.concat sep (g :: g' :: segs)
  = g +:+ sep +:+ String.concat sep (g' :: segs).
Proof. reflexivity. Qed.

(** The join of non-empty plain segments begins with a plain byte. *)
Lemma concat_head (sep g : string) (segs : list string) :
  g ≠ "" → plain g = true →
  ∃ c w, String.concat sep (g :: segs) = String c w
         ∧ Ascii.eqb c "|" = false.
Proof.
  intros Hne Hp. destruct g as [|c g]; [contradiction|].
  cbn in Hp. apply andb_prop in Hp as [Hc _].
  apply andb_prop in Hc as [_ Hc]. apply negb_true_iff in Hc.
  destruct segs as [|g' segs].
  - exists c, g. split; [reflexivity|exact Hc].
  - exists c, (g +:+ sep +:+ String.concat sep (g' :: segs)).
    split; [|exact Hc]. rewrite concat_cons2, append_cons. reflexivity.
Qed.

(** Segments that are not empty and hold neither an underscore nor a
    vertical bar, joined with single underscores, are what [splitSlug]
    gives back. *)
Theorem splitSlug_join (g : string) (segs : list string) :
  Forall (λ x, x ≠ "" ∧ plain x = true) (g :: segs) →
  splitSlug (String.concat "_" (g :: segs)) = g :: segs.
Proof.
  intros H. unfold splitSlug.
  assert (H1 : Replace (String.concat "_" (g :: segs)) "_" "|"
               = String.concat "|" (g :: segs)).
  { revert g H. induction segs as [|g' segs IH]; intros g H.
    - apply Forall_cons in H as [[_ Hg] _]. cbn [String.concat].
      apply Replace_plain, plain_no_underscore, Hg.
    - apply Forall_cons in H as [[_ Hg] H].
      rewrite !concat_cons2.
      rewrite (Replace_skip "_" "" "|" g _ (plain_no_underscore g Hg)).
      rewrite (Replace_match "_" "" "|" _ (String.concat "_" (g' :: segs)))
        by reflexivity.
      rewrite (IH g' H). reflexivity. }
  assert (H2 : Replace (String.concat "|" (g :: segs)) "|||" "|_|"
               = String.concat "|" (g :: segs)).
  { clear H1. revert g H. induction segs as [|g' segs IH]; intros g H.
    - apply Forall_cons in H as [[_ Hg] _]. cbn [String.concat].
      apply Replace_plain, plain_no_bar, Hg.
    - apply Forall_cons in H as [[_ Hg] H].
      rewrite !concat_cons2.
      rewrite (Replace_skip "|" "||" "|_|" g _ (plain_no_bar g Hg)).
      f_equal.
      pose proof H as H'. apply Forall_cons in H' as [[Hne' Hg'] _].
      destruct (concat_head "|" g' segs Hne' Hg') as (c & w & Ec & Hc).
      specialize (IH g' H). rewrite Ec in IH |- *.
      change ("|" +:+ String c w) with (String "|" (String c w)).
      rewrite Replace_copy, IH; [reflexivity|].
      rewrite !stripPrefix_cons, Ascii.eqb_refl, Ascii.eqb_sym, Hc.
      reflexivity. }
  rewrite H1, H2. clear H1 H2.
  revert g H. induction segs as [|g' segs IH]; intros g H.
  - apply Forall_cons in H as [[_ Hg] _]. cbn [String.concat].
    apply Split_plain, plain_no_bar, Hg.
  - apply Forall_cons in H as [[_ Hg] H].
    rewrite concat_cons2.
    rewrite (Split_skip "|" g _ "" (g' :: segs) (plain_no_bar g Hg)).
    + rewrite append_nil_r. reflexivity.
    + change ("|" +:+ String.concat "|" (g' :: segs))
        with (String "|" (String.concat "|" (g' :: segs))).
      cbn [Split]. rewrite (IH g' H). reflexivity.
Qed.

Lemma splitSlug_join_sample :
  splitSlug "tools_pgp_beginner" = ["tools"; "pgp"; "beginner"].
Proof.
  apply (splitSlug_join "tools" ["pgp"; "beginner"]).
  repeat constructor; discriminate.
Defined.

(** Three underscores between two plain stretches stand for a segment
    that is a literal underscore. *)
Theorem splitSlug_triple (a b : string) :
  plain a = true → plain b = true →
  splitSlug (a +:+ "___" +:+ b) = [a; "_"; b].
Proof.
  intros Ha Hb. unfold splitSlug.
  rewrite (Replace_skip "_" "" "|" a _ (plain_no_underscore a Ha)).
  rewrite (Replace_match "_" "" "|" ("___" +:+ b) ("__" +:+ b)) by reflexivity.
  rewrite (Replace_match "_" "" "|" ("__" +:+ b) ("_" +:+ b)) by reflexivity.
  rewrite (Replace_match "_" "" "|" ("_" +:+ b) b) by reflexivity.
  rewrite (Replace_plain "_" "" "|" b (plain_no_underscore b Hb)).
  rewrite (Replace_skip "|" "||" "|_|" a _ (plain_no_bar a Ha)).
  rewrite (Replace_match "|" "||" "|_|" ("|" +:+ "|" +:+ "|" +:+ b) b)
    by (rewrite !append_cons, !append_nil_l, !stripPrefix_cons; reflexivity).
  rewrite (Replace_plain "|" "||" "|_|" b (plain_no_bar b Hb)).
  rewrite (Split_skip "|" a _ "" ["_"; b] (plain_no_bar a Ha)).
  - rewrite append_nil_r. reflexivity.
  - rewrite !append_cons, append_nil_l. cbn [Split Ascii.eqb Bool.eqb].
    cbn. rewrite (Split_plain "|" b (plain_no_bar b Hb)). reflexivity.
Qed.

Lemma splitSlug_triple_sample :
  splitSlug "lesson___intro" = ["lesson"; "_"; "intro"].
Proof. apply (splitSlug_triple "lesson" "intro"); reflexivity. Defined.

(** The first replacement leaves no underscore. *)
Lemma Replace_underscore_free (s : string) :
  allChars (λ c, negb (Ascii.eqb "_" c)) (Replace s "_" "|") = true.
Proof.
  induction s as [|c s IH]; [reflexivity|].
  destruct (Ascii.eqb "_" c) eqn:Ec.
  - rewrite (Replace_match "_" "" "|" (String c s) s)
      by (rewrite stripPrefix_cons, Ec; reflexivity).
    exact IH.
  - rewrite Replace_copy by (rewrite stripPrefix_cons, Ec; reflexivity).
    cbn [allChars]. rewrite Ec, IH. reflexivity.
Qed.

Lemma stripPrefix_allChars (p : ascii → bool) (pre s rest : string) :
  stripPrefix pre s = Some rest → allChars p s = true → allChars p rest = true.
Proof.
  revert s. induction pre as [|a pre IH]; intros s; cbn.
  - intros [= ->]. auto.
  - destruct s as [|b s]; [discriminate|].
    destruct (Ascii.eqb a b); [|discriminate].
    intros E H. cbn in H. apply andb_prop in H as [_ H]. eauto.
Qed.

(** No piece of [Split] holds the separator. *)
Lemma Split_no_sep (s : string) (sep : ascii) :
  Forall (λ p, allChars (λ c, negb (Ascii.eqb sep c)) p = true) (Split s sep).
Proof.
  induction s as [|c s IH]; cbn [Split]; [repeat constructor|].
  destruct (Ascii.eqb c sep) eqn:Ec; [constructor; [reflexivity|exact IH]|].
  destruct (Split s sep) as [|h tl]; [repeat constructor|].
  - cbn. rewrite Ascii.eqb_sym, Ec. reflexivity.
  - apply Forall_cons in IH as [Hh Htl]. constructor; [|exact Htl].
    cbn. rewrite Ascii.eqb_sym, Ec, Hh. reflexivity.
Qed.

(** After the second replacement an underscore stands alone between two
    bars: the first piece has none, and a later piece that has one is the
    underscore itself. *)
Lemma Split_Replace_pieces (n : nat) (t : string) :
  String.length t ≤ n →
  allChars (λ c, negb (Ascii.eqb "_" c)) t = true →
  ∃ h tl, Split (Replace t "|||" "|_|") "|" = h :: tl
    ∧ allChars (λ c, negb (Ascii.eqb "_" c)) h = true
    ∧ Forall (λ p, p = "_" ∨ allChars (λ c, negb (Ascii.eqb "_" c)) p = true)
        tl.
Proof.
  revert t. induction n as [|n IH]; intros t Hn Ht.
  { destruct t; [|cbn in Hn; lia]. exists "", []. repeat split. constructor. }
  destruct (stripPrefix "|||" t) as [rest|] eqn:E.
  - rewrite (Replace_match "|" "||" "|_|" t rest E).
    pose proof (stripPrefix_length _ _ _ E) as Hlen. cbn in Hlen.
    destruct (IH rest ltac:(lia) (stripPrefix_allChars _ _ _ _ E Ht))
      as (h & tl & Es & Hh & Htl).
    exists "", ("_" :: h :: tl).
    split; [|split; [reflexivity|]].
    + rewrite !append_cons, append_nil_l. cbn [Split].
      change (Ascii.eqb "|" "|") with true. change (Ascii.eqb "_" "|") with false.
      cbv iota. cbn [Split]. change (Ascii.eqb "|" "|") with true. cbv iota.
      rewrite Es. reflexivity.
    + constructor; [left; reflexivity|]. constructor; [right; exact Hh|exact Htl].
  - destruct t as [|c t]; [exists "", []; repeat split; constructor|].
    rewrite (Replace_copy _ _ _ _ E).
    cbn [allChars] in Ht. apply andb_prop in Ht as [Hc Ht]. cbn in Hn.
    destruct (IH t ltac:(lia) Ht) as (h & tl & Es & Hh & Htl).
    cbn [Split]. rewrite Es.
    destruct (Ascii.eqb c "|").
    + exists "", (h :: tl). split; [reflexivity|]. split; [reflexivity|].
      constructor; [right; exact Hh|exact Htl].
    + exists (String c h), tl. split; [reflexivity|]. split; [|exact Htl].
      cbn [allChars]. rewrite Hc, Hh. reflexivity.
Qed.

(** [splitSlug] always gives at least one segment, and each segment is
    either a literal underscore or free of underscores and of vertical
    bars. *)
Theorem splitSlug_segments (s : string) :
  splitSlug s ≠ [] ∧ Forall (λ p, p = "_" ∨ plain p = true) (splitSlug s).
Proof.
  unfold splitSlug.
  destruct (Split_Replace_pieces (String.length (Replace s "_" "|"))
              (Replace s "_" "|") ltac:(lia) (Replace_underscore_free s))
    as (h & tl & Es & Hh & Htl).
  pose proof (Split_no_sep (Replace (Replace s "_" "|") "|||" "|_|") "|") as Hb.
  rewrite Es in Hb |- *. split; [discriminate|].
  assert (Hplain : ∀ p, allChars (λ c, negb (Ascii.eqb "|" c)) p = true →
                        allChars (λ c, negb (Ascii.eqb "_" c)) p = true →
                        plain p = true).
  { intros p. unfold plain.
    induction p as [|c p IHp]; cbn [allChars]; [reflexivity|].
    intros H1 H2. apply andb_prop in H1 as [H1 H1'].
    apply andb_prop in H2 as [H2 H2'].
    rewrite (Ascii.eqb_sym c "_"), (Ascii.eqb_sym c "|"), H1, H2.
    cbn [andb]. apply IHp; assumption. }
  apply Forall_cons in Hb as [Hbh Hbtl]. constructor.
  - right. apply Hplain; assumption.
  - clear Es. induction tl as [|p tl IHtl]; [constructor|].
    apply Forall_cons in Hbtl as [Hbp Hbtl]. apply Forall_cons in Htl as [Hp Htl].
    constructor; [|apply IHtl; assumption].
    destruct Hp as [->|Hp]; [left; reflexivity|right; apply Hplain; assumption].
Qed.

(** ** The invariant of the registry *)

Lemma registry_ok_new : registry_ok NewResourceParser.
Proof.
  split.
  - intros k i H. cbn in H. rewrite lookup_empty in H. discriminate.
  - intros k H. cbn in H. apply elem_of_nil in H. contradiction.
Qed.

Lemma registry_ok_addCat (c : Category) (r : ResourceParser) :
  registry_ok r → registry_ok (addCat c r).
Proof.
  intros [Ha Hb]. unfold registry_ok. cbn [addCat categories index list_].
  rewrite fmap_app. cbn [fmap list_fmap].
  set (keys := catKey <$> list_ (categories r)) in *.
  assert (Hn : length (list_ (categories r)) = length keys)
    by (subst keys; rewrite length_fmap; reflexivity).
  rewrite Hn. change (cat_ID c, Locale c) with (catKey c). split.
  - intros k i Hi. destruct (decide (catKey c = k)) as [<-|Hne].
    + rewrite lookup_insert_eq in Hi. injection Hi as <-. split.
      * apply list_lookup_middle. reflexivity.
      * intros j Hj. apply lookup_lt_Some in Hj.
        rewrite length_app in Hj. cbn in Hj. lia.
    + rewrite lookup_insert_ne in Hi by exact Hne.
      destruct (Ha k i Hi) as [Hk Hlast]. split.
      * apply lookup_app_l_Some. exact Hk.
      * intros j Hj. apply lookup_app_Some in Hj as [Hj|[_ Hj]].
        -- apply Hlast. exact Hj.
        -- apply list_lookup_singleton_Some in Hj as [_ Hj]. congruence.
  - intros k Hk. apply elem_of_app in Hk as [Hk|Hk].
    + destruct (decide (catKey c = k)) as [<-|Hne].
      * rewrite lookup_insert_eq. eauto.
      * rewrite lookup_insert_ne by exact Hne. apply Hb, Hk.
    + apply list_elem_of_singleton in Hk as ->. rewrite lookup_insert_eq. eauto.
Qed.

(** Writing through a pointer to a category does not touch its
    identifier and locale, nor the index. *)
Lemma registry_ok_updCat (ci : nat) (f : Category → Category)
    (r : ResourceParser) :
  (∀ c, catKey (f c) = catKey c) →
  registry_ok r → registry_ok (updCat ci f r).
Proof.
  intros Hf H. unfold registry_ok. cbn [updCat withList categories index list_].
  replace (catKey <$> alter f ci (list_ (categories r)))
    with (catKey <$> list_ (categories r)); [exact H|].
  apply list_eq. intros j. rewrite !list_lookup_fmap, list_lookup_alter.
  destruct (decide (ci = j)) as [->|]; [|reflexivity].
  destruct (list_ (categories r) !! j); cbn; [|reflexivity].
  rewrite Hf. reflexivity.
Qed.

Lemma registry_ok_same (r r' : ResourceParser) :
  categories r' = categories r → registry_ok r → registry_ok r'.
Proof. unfold registry_ok. intros ->. auto. Qed.

(** With the invariant, [getCat] stays inside the list. *)
Lemma getCat_in_range (id locale : string) (r : ResourceParser) :
  registry_ok r →
  (getCat id locale r = Val None ∧ index (categories r) = ∅)
  ∨ ∃ i c, getCat id locale r = Val (Some (i, c))
           ∧ list_ (categories r) !! i = Some c.
Proof.
  intros [Ha _]. unfold getCat.
  destruct (decide _) as [E|E].
  - left. split; [reflexivity|]. apply map_size_empty_inv, E.
  - right. apply map_size_non_empty_iff, map_choose in E as (k & i0 & Hk).
    assert (H0 : is_Some (list_ (categories r) !! 0)).
    { destruct (Ha k i0 Hk) as [Hi _].
      rewrite list_lookup_fmap in Hi.
      destruct (list_ (categories r)) as [|c0 l]; [|cbn; eauto].
      rewrite lookup_nil in Hi. discriminate. }
    destruct (index (categories r) !! (id, locale)) as [i|] eqn:Ei; cbn.
    + destruct (Ha _ i Ei) as [Hi _]. rewrite list_lookup_fmap in Hi.
      destruct (list_ (categories r) !! i) as [c|] eqn:Ec; [|discriminate].
      exists i, c. split; [reflexivity|exact Ec].
    + destruct H0 as [c0 H0]. rewrite H0. exists 0, c0.
      split; [reflexivity|exact H0].
Qed.

(** A registered key leads [getCat] to its category. *)
Lemma getCat_registered (id locale : string) (r : ResourceParser) (i : nat)
    (c : Category) :
  index (categories r) !! (id, locale) = Some i →
  list_ (categories r) !! i = Some c →
  getCat id locale r = Val (Some (i, c)).
Proof.
  intros Hi Hc. unfold getCat. destruct (decide _) as [E|_].
  - apply map_size_empty_inv in E. rewrite E, lookup_empty in Hi. discriminate.
  - rewrite Hi. cbn. rewrite Hc. reflexivity.
Qed.

Ltac kept :=
  intros [= <-]; cbn [parser];
  first [ assumption
        | apply registry_ok_addCat; assumption
        | eapply registry_ok_same; [|eassumption]; reflexivity
        | apply registry_ok_updCat; [intros []; reflexivity|assumption] ].

(** Every call of [Parse] that returns keeps the invariant of the
    registry. *)
Theorem Parse_preserves_registry_ok (sep : string) (cmp : Component)
    (res : Resource) (locale : string) (r : ResourceParser) (out : Return) :
  registry_ok r →
  Parse sep cmp res locale r = Val out →
  registry_ok (parser out).
Proof.
  intros Hok. destruct cmp as [f|c|s|d|i|c|]; cbn [Parse].
  - unfold parseForm.
    destruct (Content res) as [|row0 m]; [discriminate|].
    destruct (formScreens _ 0 (Screens f) m); [kept|kept|discriminate].
  - unfold parseCategory.
    destruct (Content res) as [|row [|row1 rows]]; kept.
  - unfold parseSubcategory.
    destruct (Content res) as [|row [|row1 rows]]; try kept.
    destruct (getCat _ locale r) as [[[ci cat]|]|]; [kept|kept|discriminate].
  - unfold parseDifficulty.
    destruct (Content res) as [|row [|row1 rows]]; try kept.
    cbn zeta.
    destruct (getCat _ locale r) as [[[ci cat]|]|]; [|kept|discriminate].
    destruct (Category_Sub cat _) as [[si sub]|]; kept.
  - unfold parseItem.
    destruct (Content res) as [|row0 rest]; [kept|].
    cbn zeta.
    destruct (getCat _ locale r) as [[[ci cat]|]|]; [|kept|discriminate].
    destruct (Category_Sub cat _) as [[si sub]|]; [|kept].
    destruct (Subcategory_Difficulty sub _) as [[di dif]|]; [|kept].
    destruct (negb (isEmpty (field row0 "body"))); [destruct rest|].
    + intros [= <-]. cbn [parser].
      apply registry_ok_updCat; [intros []; reflexivity|].
      eapply registry_ok_same; [|exact Hok]. reflexivity.
    + kept.
    + intros [= <-]. cbn [parser].
      apply registry_ok_updCat; [intros []; reflexivity|].
      eapply registry_ok_same; [|exact Hok]. reflexivity.
  - unfold parseChecklist. cbn zeta.
    destruct (getCat _ locale r) as [[[ci cat]|]|]; [|kept|discriminate].
    destruct (Category_Sub cat _) as [[si sub]|]; [|kept].
    destruct (Subcategory_Difficulty sub _) as [[di dif]|]; [|kept].
    destruct (negb _); [kept|].
    destruct (addChecks _ 0 _ _); [kept|discriminate].
  - kept.
Qed.


(** [getCat] under the invariant: nil for an empty list only, and for a
    key some category has, the last category with that key. *)
Lemma getCat_last_of_key (id locale : string) (r : ResourceParser) :
  registry_ok r →
  (getCat id locale r = Val None ↔ list_ (categories r) = [])
  ∧ (∀ c0, c0 ∈ list_ (categories r) → cat_ID c0 = id → Locale c0 = locale →
       ∃ i c, getCat id locale r = Val (Some (i, c))
         ∧ list_ (categories r) !! i = Some c
         ∧ cat_ID c = id ∧ Locale c = locale
         ∧ ∀ j c', list_ (categories r) !! j = Some c' →
                   cat_ID c' = id → Locale c' = locale → j ≤ i).
Proof.
  intros Hok. pose proof Hok as [Ha Hb]. split.
  - split.
    + intros Hnil.
      destruct (getCat_in_range id locale r Hok)
        as [[_ E]|(i & c & E & _)]; [|congruence].
      destruct (list_ (categories r)) as [|c0 l] eqn:El; [reflexivity|].
      destruct (Hb (catKey c0)) as [i Hi].
      { cbn. apply list_elem_of_here. }
      rewrite E, lookup_empty in Hi. discriminate.
    + intros El. apply getCat_empty.
      destruct (map_choose_or_empty (index (categories r)))
        as [(k & i & Hk)|E]; [|exact E].
      destruct (Ha k i Hk) as [Hi _]. rewrite El in Hi. discriminate.
  - intros c0 Hc0 Hid Hloc.
    destruct (Hb (id, locale)) as [i Hi].
    { subst id locale. apply (list_elem_of_fmap_2 catKey). exact Hc0. }
    destruct (Ha _ i Hi) as [Hk Hlast].
    rewrite list_lookup_fmap in Hk.
    destruct (list_ (categories r) !! i) as [c|] eqn:Ec; [|discriminate].
    assert (cat_ID c = id ∧ Locale c = locale) as [Hcid Hcloc]
      by (unfold catKey in Hk; cbn in Hk; split; congruence).
    exists i, c. split; [apply getCat_registered; assumption|].
    split; [exact Ec|]. split; [exact Hcid|]. split; [exact Hcloc|].
    intros j c' Hj Hid' Hloc'. apply Hlast.
    rewrite list_lookup_fmap, Hj. cbn. unfold catKey. congruence.
Qed.

(** With the invariant, [getCat] returns nil exactly when the list has no
    category; and for an identifier and a locale that some category of
    the list has, it returns the last category of the list that has
    them. *)
Theorem getCat_latest (id locale : string) (r : ResourceParser) :
  registry_ok r →
  (getCat id locale r = Val None ↔ list_ (categories r) = [])
  ∧ (∀ c0, c0 ∈ list_ (categories r) → cat_ID c0 = id → Locale c0 = locale →
       ∃ i c, getCat id locale r = Val (Some (i, c))
         ∧ list_ (categories r) !! i = Some c
         ∧ cat_ID c = id ∧ Locale c = locale
         ∧ ∀ j c', list_ (categories r) !! j = Some c' →
                   cat_ID c' = id → Locale c' = locale → j ≤ i).
Proof. exact (getCat_last_of_key id locale r). Qed.

(** With the invariant, a subcategory whose parent's identifier and
    locale some category of the list has is appended to the children of
    the last such category, and nothing else changes. *)
Theorem parseSubcategory_registered (s : SubcategoryNode) (row : Row)
    (locale : string) (r : ResourceParser) (c0 : Category) :
  registry_ok r →
  c0 ∈ list_ (categories r) →
  cat_ID c0 = cat_ID (sub_parent s) → Locale c0 = locale →
  let new :=
    mkSubcategory (sub_ID (sub_node s)) (sub_Order (sub_node s))
      (field row "name") [] in
  ∃ i cat r',
    parseSubcategory s (mkResource [row]) locale r
    = Val (mkReturn None r' (mkResource [row]))
    ∧ list_ (categories r) !! i = Some cat
    ∧ cat_ID cat = cat_ID (sub_parent s) ∧ Locale cat = locale
    ∧ (∀ j c', list_ (categories r) !! j = Some c' →
               cat_ID c' = cat_ID (sub_parent s) → Locale c' = locale → j ≤ i)
    ∧ list_ (categories r') !! i
      = Some (mkCategory (cat_ID cat) (cat_Order cat) (cat_Name cat) (Locale cat)
                (subcategories cat ++ [new]))
    ∧ (∀ j, j ≠ i → list_ (categories r') !! j = list_ (categories r) !! j)
    ∧ index (categories r') = index (categories r)
    ∧ forms r' = forms r.
Proof.
  intros Hok Hc0 Hid Hloc new.
  destruct (getCat_last_of_key (cat_ID (sub_parent s)) locale r Hok) as [_ H].
  destruct (H c0 Hc0 Hid Hloc) as (i & cat & Hget & Hi & Hcid & Hcloc & Hlast).
  exists i, cat. eexists. unfold parseSubcategory. cbn [Content].
  rewrite Hget. split; [reflexivity|]. cbn [updCat withList categories list_ index forms].
  split; [exact Hi|]. split; [exact Hcid|]. split; [exact Hcloc|].
  split; [exact Hlast|]. split; [|split; [|split; reflexivity]].
  - rewrite list_lookup_alter_eq, Hi. reflexivity.
  - intros j Hj. apply list_lookup_alter_ne. congruence.
Qed.

(** ** Chains that keep resolving *)

(** A search finds at the same position the element that has been
    altered without changing what the search tests. *)
Lemma list_find_alter {A} (P : A → Prop) `{!∀ x, Decision (P x)}
    (f : A → A) (i : nat) (l : list A) (j : nat) (x : A) :
  (∀ y, P (f y) ↔ P y) →
  list_find P l = Some (j, x) →
  list_find P (alter f i l) = Some (j, if decide (i = j) then f x else x).
Proof.
  intros Hf Hfind. apply list_find_Some in Hfind as (Hj & HP & Hbefore).
  apply list_find_Some. rewrite list_lookup_alter.
  destruct (decide (i = j)) as [->|Hne].
  - rewrite Hj. split; [reflexivity|]. split; [apply Hf, HP|].
    intros k y Hk Hlt. rewrite list_lookup_alter_ne in Hk by lia. eauto.
  - rewrite Hj. split; [reflexivity|]. split; [exact HP|].
    intros k y Hk Hlt. rewrite list_lookup_alter in Hk.
    destruct (decide (i = k)) as [->|]; [|eauto].
    destruct (l !! k) as [z|] eqn:Ez; [|discriminate].
    injection Hk as <-. rewrite Hf. eauto.
Qed.

Lemma resolveDif_same (a b d loc : string) (r r' : ResourceParser) :
  categories r' = categories r →
  resolveDif a b d loc r' = resolveDif a b d loc r.
Proof. unfold resolveDif, getCat. intros ->. reflexivity. Qed.

Lemma getCat_updCat (id loc : string) (ci : nat) (F : Category → Category)
    (r : ResourceParser) (i : nat) (c : Category) :
  getCat id loc r = Val (Some (i, c)) →
  getCat id loc (updCat ci F r)
  = Val (Some (i, if decide (ci = i) then F c else c)).
Proof.
  unfold getCat. cbn [updCat withList categories index list_].
  destruct (decide _); [discriminate|].
  rewrite list_lookup_alter.
  destruct (list_ (categories r) !! _) as [c'|] eqn:E; [|discriminate].
  intros [= <- <-].
  destruct (decide _) as [e|]; [rewrite e, E|]; reflexivity.
Qed.

Lemma resolveDif_updCat (a b d loc : string) (ci : nat)
    (F : Category → Category) (r : ResourceParser) (p : nat * nat * nat) :
  keepsChains F →
  resolveDif a b d loc r = Some p →
  resolveDif a b d loc (updCat ci F r) = Some p.
Proof.
  intros HF. unfold resolveDif.
  destruct (getCat a loc r) as [[[i cat]|]|] eqn:Eg; try discriminate.
  rewrite (getCat_updCat a loc ci F r i cat Eg).
  destruct (Category_Sub cat b) as [[si sub]|] eqn:Es; [|discriminate].
  destruct (Subcategory_Difficulty sub d) as [[di dif]|] eqn:Ed; [|discriminate].
  intros [= <-].
  destruct (decide (ci = i)); [|rewrite Es, Ed; reflexivity].
  destruct (HF cat b si sub Es) as (sub' & -> & Hd).
  destruct (Hd d di dif Ed) as (dif' & ->). reflexivity.
Qed.

Lemma keepsChains_Add (new : Subcategory) :
  keepsChains (λ cat, Category_Add cat new).
Proof.
  intros cat subID si sub Hs. exists sub. split.
  - unfold Category_Sub, Category_Add. cbn [subcategories].
    apply list_find_app_l. exact Hs.
  - eauto.
Qed.

Lemma keepsChains_updSub (si' : nat) (g : Subcategory → Subcategory) :
  (∀ sub, sub_ID (g sub) = sub_ID sub) →
  (∀ sub difID di dif,
     Subcategory_Difficulty sub difID = Some (di, dif) →
     ∃ dif', Subcategory_Difficulty (g sub) difID = Some (di, dif')) →
  keepsChains (updSub si' g).
Proof.
  intros Hid Hg cat subID si sub Hs.
  exists (if decide (si' = si) then g sub else sub). split.
  - unfold Category_Sub, updSub. cbn [subcategories].
    apply (list_find_alter (λ s, sub_ID s = subID)); [|exact Hs].
    intros y. rewrite Hid. reflexivity.
  - intros difID di dif Hd. destruct (decide (si' = si)); eauto.
Qed.

Lemma keepsChains_AddDifficulty (si' : nat) (new : Difficulty) :
  keepsChains (updSub si' (λ sub, Subcategory_AddDifficulty sub new)).
Proof.
  apply keepsChains_updSub; [reflexivity|].
  intros sub difID di dif Hd. exists dif.
  unfold Subcategory_Difficulty, Subcategory_AddDifficulty. cbn [difficulties].
  apply list_find_app_l. exact Hd.
Qed.

Lemma keepsChains_updDif (si' di' : nat) (h : Difficulty → Difficulty) :
  (∀ dif, dif_ID (h dif) = dif_ID dif) →
  keepsChains (updSub si' (updDif di' h)).
Proof.
  intros Hid. apply keepsChains_updSub; [reflexivity|].
  intros sub difID di dif Hd.
  exists (if decide (di' = di) then h dif else dif).
  unfold Subcategory_Difficulty, updDif. cbn [difficulties].
  apply (list_find_alter (λ x, dif_ID x = difID)); [|exact Hd].
  intros y. rewrite Hid. reflexivity.
Qed.

Ltac chain_kept Hres :=
  intros [= <-]; cbn [parser];
  first [ exact Hres
        | rewrite resolveDif_same by reflexivity; exact Hres
        | apply resolveDif_updCat;
          [ first [ apply keepsChains_Add
                  | apply keepsChains_AddDifficulty
                  | apply keepsChains_updDif; reflexivity ]
          | first [ exact Hres
                  | rewrite resolveDif_same by reflexivity; exact Hres ] ] ].

(** A chain that resolves still resolves, to the same positions, after
    any call of [Parse] for a node that is not a category. *)
Theorem Parse_keeps_chains (sep : string) (cmp : Component) (res : Resource)
    (locale : string) (r : ResourceParser) (out : Return)
    (a b d loc : string) (p : nat * nat * nat) :
  (∀ c, cmp ≠ CCategory c) →
  resolveDif a b d loc r = Some p →
  Parse sep cmp res locale r = Val out →
  resolveDif a b d loc (parser out) = Some p.
Proof.
  intros Hcmp Hres. destruct cmp as [f|c|s|dn|i|c|]; cbn [Parse].
  - unfold parseForm.
    destruct (Content res) as [|row0 m]; [discriminate|].
    destruct (formScreens _ 0 (Screens f) m);
      [chain_kept Hres|chain_kept Hres|discriminate].
  - destruct (Hcmp c eq_refl).
  - unfold parseSubcategory.
    destruct (Content res) as [|row [|row1 rows]]; try chain_kept Hres.
    destruct (getCat _ locale r) as [[[ci cat]|]|];
      [chain_kept Hres|chain_kept Hres|discriminate].
  - unfold parseDifficulty.
    destruct (Content res) as [|row [|row1 rows]]; try chain_kept Hres.
    cbn zeta.
    destruct (getCat _ locale r) as [[[ci cat]|]|];
      [|chain_kept Hres|discriminate].
    destruct (Category_Sub cat _) as [[si sub]|]; chain_kept Hres.
  - unfold parseItem.
    destruct (Content res) as [|row0 rest]; [chain_kept Hres|].
    cbn zeta.
    destruct (getCat _ locale r) as [[[ci cat]|]|];
      [|chain_kept Hres|discriminate].
    destruct (Category_Sub cat _) as [[si sub]|]; [|chain_kept Hres].
    destruct (Subcategory_Difficulty sub _) as [[di dif]|]; [|chain_kept Hres].
    destruct (negb (isEmpty (field row0 "body"))); [destruct rest|];
      chain_kept Hres.
  - unfold parseChecklist. cbn zeta.
    destruct (getCat _ locale r) as [[[ci cat]|]|];
      [|chain_kept Hres|discriminate].
    destruct (Category_Sub cat _) as [[si sub]|]; [|chain_kept Hres].
    destruct (Subcategory_Difficulty sub _) as [[di dif]|]; [|chain_kept Hres].
    destruct (negb _); [chain_kept Hres|].
    destruct (addChecks _ 0 _ _); [chain_kept Hres|discriminate].
  - chain_kept Hres.
Qed.

(** ** Checklist merges, again *)

Lemma dropNil_idem (rows : list Row) : dropNil (dropNil rows) = dropNil rows.
Proof. induction rows as [|[m|] rows IH]; cbn; auto. Qed.

Lemma alter_idem {A} (f : A → A) (i : nat) (l : list A) :
  (∀ x, f (f x) = f x) → alter f i (alter f i l) = alter f i l.
Proof.
  intros Hf. apply list_eq. intros j.
  destruct (decide (i = j)) as [->|Hne].
  - rewrite !list_lookup_alter_eq. destruct (l !! j); cbn; [|reflexivity].
    rewrite Hf. reflexivity.
  - rewrite !list_lookup_alter_ne by exact Hne. reflexivity.
Qed.

Lemma updCat_idem (ci si di : nat) (g : Difficulty → Difficulty)
    (r : ResourceParser) :
  (∀ x, g (g x) = g x) →
  updCat ci (updSub si (updDif di g)) (updCat ci (updSub si (updDif di g)) r)
  = updCat ci (updSub si (updDif di g)) r.
Proof.
  intros Hg. unfold updCat, withList. cbn. f_equal. f_equal.
  apply alter_idem. intros cat. unfold updSub. cbn. f_equal.
  apply alter_idem. intros sub. unfold updDif. cbn. f_equal.
  apply alter_idem. exact Hg.
Qed.

Lemma parseChecklist_success_resolves (c : ChecklistNode) (res : Resource)
    (locale : string) (r : ResourceParser) (out : Return) :
  parseChecklist c res locale r = Val out →
  err out = None →
  ∃ ci si di,
    resolveDif (cat_ID (sub_parent (dif_parent (chk_parent c))))
      (sub_ID (sub_node (dif_parent (chk_parent c))))
      (dif_ID (dif_node (chk_parent c))) locale r = Some (ci, si, di).
Proof.
  unfold resolveDif, parseChecklist.
  destruct (getCat _ locale r) as [[[ci cat]|]|]; try discriminate.
  2:{ intros [= <-]. discriminate. }
  destruct (Category_Sub cat _) as [[si sub]|].
  2:{ intros [= <-]. discriminate. }
  destruct (Subcategory_Difficulty sub _) as [[di dif]|].
  2:{ intros [= <-]. discriminate. }
  eauto.
Qed.

(** A checklist merge that has succeeded can be repeated, with the
    Resource and the parser it has left, and changes nothing. *)
Theorem parseChecklist_idempotent (c : ChecklistNode) (res : Resource)
    (locale : string) (r : ResourceParser) (out : Return) :
  parseChecklist c res locale r = Val out →
  err out = None →
  parseChecklist c (resource out) locale (parser out) = Val out.
Proof.
  intros Hp Herr.
  destruct (parseChecklist_success_resolves c res locale r out Hp Herr)
    as (ci & si & di & Hres).
  pose proof (parseChecklist_resolved c res locale r ci si di Hres) as H1.
  cbn zeta in H1. rewrite Hp in H1.
  destruct (decide _) as [Hlen|_] in H1; injection H1 as ->; [|discriminate].
  cbn [resource parser Content].
  set (g := λ dif, Difficulty_SetChecks dif _).
  assert (Hres' : resolveDif (cat_ID (sub_parent (dif_parent (chk_parent c))))
                    (sub_ID (sub_node (dif_parent (chk_parent c))))
                    (dif_ID (dif_node (chk_parent c))) locale
                    (updCat ci (updSub si (updDif di g)) r) = Some (ci, si, di)).
  { apply resolveDif_updCat; [|exact Hres].
    apply keepsChains_updDif. reflexivity. }
  pose proof (parseChecklist_resolved c (mkResource (dropNil (Content res)))
                locale _ ci si di Hres') as H2.
  cbn zeta in H2. cbn [Content] in H2. rewrite dropNil_idem in H2.
  rewrite decide_True in H2 by exact Hlen.
  rewrite H2. fold g. rewrite updCat_idem; [reflexivity|].
  intros x. reflexivity.
Qed.

(** ** Merging top-down *)

Lemma alter_last {A} (f : A → A) (l : list A) (x : A) :
  alter f (length l) (l ++ [x]) = l ++ [f x].
Proof.
  rewrite <- (Nat.add_0_r (length l)), alter_app_r. reflexivity.
Qed.

(** From any parser, the merges of a category, of a subcategory of it,
    of a difficulty of that subcategory, of an item of that difficulty
    with one row and of the difficulty's checklist with as many rows as
    the schema has checks, made in this order for one locale, all
    succeed, and leave at the end of the registry's list the category
    with exactly this subtree. *)
Theorem Parse_top_down (sep : string) (c : Category) (sub : Subcategory)
    (dif : Difficulty) (item : Item) (ck : Checklist)
    (rowC rowS rowD rowI : Row) (rowsK : list Row) (locale : string)
    (r : ResourceParser) :
  let s := mkSubcategoryNode sub c in
  let d := mkDifficultyNode dif s in
  length (dropNil rowsK) = length (Checks ck) →
  ∃ r1 r2 r3 r4 r5,
    Parse sep (CCategory c) (mkResource [rowC]) locale r
    = Val (mkReturn None r1 (mkResource [rowC]))
    ∧ Parse sep (CSubcategory s) (mkResource [rowS]) locale r1
      = Val (mkReturn None r2 (mkResource [rowS]))
    ∧ Parse sep (CDifficulty d) (mkResource [rowD]) locale r2
      = Val (mkReturn None r3 (mkResource [rowD]))
    ∧ Parse sep (CItem (mkItemNode item d)) (mkResource [rowI]) locale r3
      = Val (mkReturn None r4 (mkResource [rowI]))
    ∧ Parse sep (CChecklist (mkChecklistNode ck d)) (mkResource rowsK) locale r4
      = Val (mkReturn None r5 (mkResource (dropNil rowsK)))
    ∧ list_ (categories r5)
      = list_ (categories r)
        ++ [mkCategory (cat_ID c) (cat_Order c) (field rowC "name") locale
              [mkSubcategory (sub_ID sub) (sub_Order sub) (field rowS "name")
                 [mkDifficulty (dif_ID dif) (field rowD "description")
                    [mkItem (item_ID item) (TrimSpace (field rowI "title"))
                       (TrimSpace (field rowI "body")) (item_Order item)]
                    (Some (mkChecklist
                             (zip_with pairCheck (dropNil rowsK) (Checks ck))))]]].
Proof.
  intros s d Hlen.
  set (n := length (list_ (categories r))).
  set (c1 := mkCategory (cat_ID c) (cat_Order c) (field rowC "name") locale []).
  set (r1 := addCat c1 r).
  assert (Hidx : ∀ F, index (categories (updCat n F r1)) = index (categories r1))
    by reflexivity.
  assert (Hkey : index (categories r1) !! (cat_ID c, locale) = Some n)
    by apply lookup_insert_eq.
  (* the subcategory *)
  set (sub1 := mkSubcategory (sub_ID sub) (sub_Order sub) (field rowS "name") []).
  set (r2 := updCat n (λ cat, Category_Add cat sub1) r1).
  assert (Hl2 : list_ (categories r2)
                = list_ (categories r) ++ [Category_Add c1 sub1])
    by exact (alter_last (λ cat, Category_Add cat sub1)
                (list_ (categories r)) c1).
  (* the difficulty *)
  set (dif1 := mkDifficulty (dif_ID dif) (field rowD "description") [] None).
  set (r3 := updCat n (updSub 0 (λ x, Subcategory_AddDifficulty x dif1)) r2).
  assert (Hl3 : list_ (categories r3)
                = list_ (categories r)
                  ++ [updSub 0 (λ x, Subcategory_AddDifficulty x dif1)
                        (Category_Add c1 sub1)]).
  { subst r3. cbn [updCat withList categories list_]. rewrite Hl2.
    exact (alter_last _ (list_ (categories r)) (Category_Add c1 sub1)). }
  (* the item *)
  set (body := TrimSpace (field rowI "body")).
  set (item1 := mkItem (item_ID item) (TrimSpace (field rowI "title")) body
                  (item_Order item)).
  set (r4 := updCat n (updSub 0 (updDif 0 (λ x, Difficulty_AddItem x item1)))
               (withBuffer r3 body)).
  assert (Hl4 : list_ (categories r4)
                = list_ (categories r)
                  ++ [mkCategory (cat_ID c) (cat_Order c) (field rowC "name")
                        locale
                        [mkSubcategory (sub_ID sub) (sub_Order sub)
                           (field rowS "name")
                           [mkDifficulty (dif_ID dif)
                              (field rowD "description") [item1] None]]]).
  { subst r4. cbn [updCat withList withBuffer categories list_]. rewrite Hl3.
    exact (alter_last (updSub 0 (updDif 0 (λ x, Difficulty_AddItem x item1)))
             (list_ (categories r)) _). }
  set (cl := mkChecklist (zip_with pairCheck (dropNil rowsK) (Checks ck))).
  set (r5 := updCat n (updSub 0 (updDif 0 (λ x, Difficulty_SetChecks x cl))) r4).
  exists r1, r2, r3, r4, r5.
  split; [reflexivity|]. split; [|split; [|split; [|split]]].
  - cbn [Parse]. unfold parseSubcategory. cbn [Content s sub_parent].
    rewrite (getCat_addCat c1 r : getCat (cat_ID c) locale r1 = _).
    reflexivity.
  - cbn [Parse]. unfold parseDifficulty.
    cbn [Content d s dif_parent sub_parent sub_node dif_node].
    rewrite (getCat_registered (cat_ID c) locale r2 n (Category_Add c1 sub1)).
    + unfold Category_Sub. cbn [Category_Add subcategories c1 app list_find].
      rewrite decide_True by reflexivity. reflexivity.
    + exact Hkey.
    + rewrite Hl2. apply list_lookup_middle. reflexivity.
  - cbn [Parse]. unfold parseItem.
    cbn [Content d s item_parent dif_parent sub_parent sub_node dif_node
           item_node].
    rewrite (getCat_registered (cat_ID c) locale r3 n
               (updSub 0 (λ x, Subcategory_AddDifficulty x dif1)
                  (Category_Add c1 sub1))).
    + unfold Category_Sub.
      cbn [updSub Category_Add subcategories c1 app list_find alter list_alter].
      rewrite decide_True by reflexivity.
      unfold Subcategory_Difficulty.
      cbn [Subcategory_AddDifficulty difficulties sub1 app list_find].
      rewrite decide_True by reflexivity.
      destruct (isEmpty (field rowI "body")) eqn:Eb; cbn [negb fold_left].
      * apply isEmpty_true in Eb. subst r4 item1 body. rewrite Eb.
        reflexivity.
      * rewrite append_nil_l. reflexivity.
    + exact Hkey.
    + rewrite Hl3. apply list_lookup_middle. reflexivity.
  - cbn [Parse].
    rewrite (parseChecklist_resolved (mkChecklistNode ck d) (mkResource rowsK)
               locale r4 n 0 0).
    + cbn zeta. cbn [Content chk_node]. rewrite decide_True by exact Hlen.
      reflexivity.
    + unfold resolveDif.
      cbn [chk_parent d s dif_parent sub_parent sub_node dif_node].
      rewrite (getCat_registered (cat_ID c) locale r4 n _ Hkey
                 ltac:(rewrite Hl4; apply list_lookup_middle; reflexivity)).
      unfold Category_Sub. cbn [subcategories list_find].
      rewrite decide_True by reflexivity.
      unfold Subcategory_Difficulty. cbn [difficulties list_find].
      rewrite decide_True by reflexivity. reflexivity.
  - subst r5. cbn [updCat withList categories list_]. rewrite Hl4.
    exact (alter_last (updSub 0 (updDif 0 (λ x, Difficulty_SetChecks x cl)))
             (list_ (categories r)) _).
Qed.

(** ** Form merges, again *)

Lemma namedScreens_cons (fs : FormScreen) (fss : list FormScreen) :
  namedScreens (fs :: fss)
  = if isEmpty (scr_Name fs) then namedScreens fss else S (namedScreens fss).
Proof.
  unfold namedScreens. rewrite filter_cons.
  destruct (scr_Name fs); cbn [isEmpty].
  - rewrite decide_False by auto. reflexivity.
  - rewrite decide_True by discriminate. reflexivity.
Qed.

(** The walk over the screens ends normally exactly when the rows begin
    with one header, a row with a non-empty [screen], for each named
    screen. *)
Lemma formScreens_Done_iff (n i : nat) (fss : list FormScreen) (m : list Row) :
  (∃ screens, formScreens n i fss m = Done screens)
  ↔ namedScreens fss ≤ length m
    ∧ Forall (λ row, field row "screen" ≠ "") (take (namedScreens fss) m).
Proof.
  revert i m. induction fss as [|fs fss IH]; intros i m.
  - cbn. split; [intros _; split; [lia|constructor]|eauto].
  - cbn [formScreens]. rewrite namedScreens_cons. unfold formHeader.
    destruct (isEmpty (scr_Name fs)); cbn [negb].
    + cbn. rewrite formItems_zero. cbn. rewrite <- (IH (S i) m).
      destruct (formScreens n (S i) fss m); cbn; split;
        intros [x H]; try discriminate; eauto.
    + destruct m as [|row m]; cbn.
      { split; [intros [x H]; discriminate|intros [H _]; lia]. }
      destruct (isEmpty (field row "screen")) eqn:Er; cbn.
      * apply isEmpty_true in Er. split; [intros [x H]; discriminate|].
        intros [_ H]. apply Forall_cons in H as [H _]. contradiction.
      * apply isEmpty_false in Er. rewrite formItems_zero. cbn.
        specialize (IH (S i) m). split.
        -- intros [x H].
           destruct (formScreens n (S i) fss m) as [rest| |]; try discriminate.
           destruct (proj1 IH (ex_intro _ rest eq_refl)) as [Hlen Hall].
           split; [cbn; lia|cbn; constructor; assumption].
        -- intros [Hlen Hall]. cbn in Hlen, Hall.
           apply Forall_cons in Hall as [_ Hall].
           assert (Hlen' : namedScreens fss ≤ length m) by lia.
           destruct (proj2 IH (conj Hlen' Hall)) as [rest ->].
           cbn. eauto.
Qed.

(** A form merge with at least one row returns no error exactly when the
    rows after the first begin with one row that has a non-empty [screen]
    field for each named screen of the schema; item slots and further
    rows play no part. *)
Theorem parseForm_succeeds_iff (f : Form) (row0 : Row) (m : list Row)
    (locale : string) (r : ResourceParser) :
  (∃ r', parseForm f (mkResource (row0 :: m)) locale r
         = Val (mkReturn None r' (mkResource (row0 :: m))))
  ↔ namedScreens (Screens f) ≤ length m
    ∧ Forall (λ row, field row "screen" ≠ "")
        (take (namedScreens (Screens f)) m).
Proof.
  rewrite <- (formScreens_Done_iff (length (Screens f)) 0).
  unfold parseForm. cbn [Content].
  destruct (formScreens _ 0 (Screens f) m) as [screens|e|]; split;
    intros [x H]; try discriminate; eauto.
Qed.

(** The names the walk gives the screens: none for a screen without a
    name in the schema, a non-empty one for a named screen. *)
Lemma formScreens_names (n i : nat) (fss : list FormScreen) (m : list Row)
    (screens : list FormScreen) :
  formScreens n i fss m = Done screens →
  Forall2 (λ fs sc, (scr_Name sc = "" ↔ scr_Name fs = "")
                    ∧ length (Items sc) = length (Items fs))
    fss screens.
Proof.
  revert i m screens. induction fss as [|fs fss IH]; intros i m screens.
  - cbn. intros [= <-]. constructor.
  - cbn [formScreens]. unfold formHeader.
    destruct (isEmpty (scr_Name fs)) eqn:En; cbn [negb].
    + cbn. rewrite formItems_zero. cbn.
      destruct (formScreens n (S i) fss m) as [rest| |] eqn:E; cbn;
        try discriminate.
      intros [= <-]. constructor; [|exact (IH _ _ _ E)].
      apply isEmpty_true in En. cbn. rewrite length_replicate. tauto.
    + destruct m as [|row m]; cbn; [discriminate|].
      destruct (isEmpty (field row "screen")) eqn:Er; cbn; [discriminate|].
      rewrite formItems_zero. cbn.
      destruct (formScreens n (S i) fss m) as [rest| |] eqn:E; cbn;
        try discriminate.
      intros [= <-]. constructor; [|exact (IH _ _ _ E)].
      apply isEmpty_false in En, Er. cbn. rewrite length_replicate. tauto.
Qed.

(** A form merge that returns no error has put under (id, locale) a form
    with the schema's identifier, the name from the first row's [form]
    field, the locale, and screen for screen the shape of the schema: a
    name exactly where the schema has one, and as many items.  The other
    forms, the registry and the buffer are as they were. *)
Theorem parseForm_stores (f : Form) (res : Resource) (locale : string)
    (r r' : ResourceParser) :
  parseForm f res locale r = Val (mkReturn None r' res) →
  ∃ row0 m form,
    Content res = row0 :: m
    ∧ forms r' !! (form_ID f, locale) = Some form
    ∧ (∀ k, k ≠ (form_ID f, locale) → forms r' !! k = forms r !! k)
    ∧ categories r' = categories r ∧ buffer r' = buffer r
    ∧ form_ID form = form_ID f
    ∧ form_Name form = field row0 "form"
    ∧ form_Locale form = locale
    ∧ Forall2 (λ fs sc, (scr_Name sc = "" ↔ scr_Name fs = "")
                        ∧ length (Items sc) = length (Items fs))
        (Screens f) (Screens form).
Proof.
  unfold parseForm. destruct (Content res) as [|row0 m]; [discriminate|].
  destruct (formScreens _ 0 (Screens f) m) as [screens|e|] eqn:E;
    try discriminate.
  intros [= <-]. exists row0, m. eexists. split; [reflexivity|].
  cbn [forms categories buffer form_ID form_Locale].
  split; [apply lookup_insert_eq|].
  split; [intros k Hk; apply lookup_insert_ne; congruence|].
  repeat (split; [reflexivity|]).
  exact (formScreens_names _ _ _ _ _ E).
Qed.

(** A form merge that has returned no error can be repeated on the
    parser it has left, and changes nothing: a form is filed under its
    key, and filing it again replaces it by itself. *)
Theorem parseForm_idempotent (f : Form) (res : Resource) (locale : string)
    (r r' : ResourceParser) :
  parseForm f res locale r = Val (mkReturn None r' res) →
  parseForm f res locale r' = Val (mkReturn None r' res).
Proof.
  unfold parseForm. destruct (Content res) as [|row0 m]; [discriminate|].
  destruct (formScreens _ 0 (Screens f) m) as [screens|e|]; try discriminate.
  intros [= <-]. cbn [forms categories buffer form_ID form_Locale].
  rewrite insert_insert_eq. reflexivity.
Qed.

(** ** The errors of each kind of node *)

Lemma formScreens_Fail (n i : nat) (fss : list FormScreen) (m : list Row)
    (e : error) :
  formScreens n i fss m = Fail e →
  ∃ j, i ≤ j ∧ (e = ErrNoMoreAtScreen (j + 1) n ∨ e = ErrExpectedScreen j).
Proof.
  revert i m. induction fss as [|fs fss IH]; intros i m; [discriminate|].
  cbn [formScreens]. unfold formHeader.
  assert (Hrec : ∀ m', (formScreens n (S i) fss m' ≫= λ rest, Done rest) = Fail e
                       → ∃ j, i ≤ j ∧ (e = ErrNoMoreAtScreen (j + 1) n
                                       ∨ e = ErrExpectedScreen j)).
  { intros m' H.
    destruct (formScreens n (S i) fss m') as [rest| |] eqn:E; try discriminate.
    cbn in H. injection H as <-.
    destruct (IH _ _ E) as (j & Hj & He). exists j. split; [lia|exact He]. }
  destruct (isEmpty (scr_Name fs)); cbn [negb].
  - cbn. rewrite formItems_zero. cbn. intros H.
    destruct (formScreens n (S i) fss m) as [rest| |] eqn:E; try discriminate.
    cbn in H. injection H as <-.
    destruct (IH _ _ E) as (j & Hj & He). exists j. split; [lia|exact He].
  - destruct m as [|row m]; cbn.
    { intros [= <-]. exists i. split; [lia|left; reflexivity]. }
    destruct (isEmpty (field row "screen")); cbn.
    { intros [= <-]. exists i. split; [lia|right; reflexivity]. }
    rewrite formItems_zero. cbn. intros H.
    destruct (formScreens n (S i) fss m) as [rest| |] eqn:E; try discriminate.
    cbn in H. injection H as <-.
    destruct (IH _ _ E) as (j & Hj & He). exists j. split; [lia|exact He].
Qed.

Ltac errs := intros [= <-]; cbn [err]; intros [= <-]; tauto.

(** The errors [Parse] can return, by the kind of the node: a form
    returns one of its two header errors, never the error of the item
    loop; a category only [ErrContent]; the nodes below it [ErrContent]
    or the error of one of their lookups, an item also the legacy error,
    a checklist the count error with two numbers that differ but never
    [ErrContent]; and the error for an invalid component is returned for
    a value of another type, and for no other. *)
Theorem Parse_errors_by_kind (sep : string) (cmp : Component) (res : Resource)
    (locale : string) (r : ResourceParser) (out : Return) (e : error) :
  Parse sep cmp res locale r = Val out →
  err out = Some e →
  match cmp with
  | CForm f =>
      ∃ j, e = ErrNoMoreAtScreen (j + 1) (length (Screens f))
           ∨ e = ErrExpectedScreen j
  | CCategory _ => e = ErrContent
  | CSubcategory s =>
      e = ErrContent ∨ e = ErrNoCat (cat_ID (sub_parent s)) locale
  | CDifficulty d =>
      e = ErrContent
      ∨ e = ErrNoCat (cat_ID (sub_parent (dif_parent d))) locale
      ∨ e = ErrNoSub (sub_ID (sub_node (dif_parent d))) locale
  | CItem i =>
      e = ErrContent
      ∨ e = ErrNoCat (sub_ID (sub_node (dif_parent (item_parent i)))) locale
      ∨ e = ErrNoSub (sub_ID (sub_node (dif_parent (item_parent i)))) locale
      ∨ e = ErrNoDif (dif_ID (dif_node (item_parent i))) locale
      ∨ e = ErrInvalidLegacy (dif_ID (dif_node (item_parent i))) locale
  | CChecklist c =>
      e = ErrNoCat (sub_ID (sub_node (dif_parent (chk_parent c)))) locale
      ∨ e = ErrNoSub (sub_ID (sub_node (dif_parent (chk_parent c)))) locale
      ∨ e = ErrNoDif (dif_ID (dif_node (chk_parent c))) locale
      ∨ ∃ l, l ≠ length (Checks (chk_node c))
             ∧ e = ErrChecks l (length (Checks (chk_node c)))
  | COther => e = ErrInvalidComponent
  end.
Proof.
  destruct cmp as [f|c|s|d|i|c|]; cbn [Parse].
  - unfold parseForm.
    destruct (Content res) as [|row0 m]; [discriminate|].
    destruct (formScreens _ 0 (Screens f) m) as [screens|e'|] eqn:E;
      [intros [= <-]; discriminate| |discriminate].
    intros [= <-]. cbn. intros [= <-].
    destruct (formScreens_Fail _ _ _ _ _ E) as (j & _ & He). eauto.
  - unfold parseCategory.
    destruct (Content res) as [|row [|row1 rows]];
      intros [= <-]; cbn; intros [= <-]; reflexivity.
  - unfold parseSubcategory.
    destruct (Content res) as [|row [|row1 rows]]; try errs.
    destruct (getCat _ locale r) as [[[ci cat]|]|];
      [intros [= <-]; discriminate|errs|discriminate].
  - unfold parseDifficulty.
    destruct (Content res) as [|row [|row1 rows]]; try errs.
    cbn zeta.
    destruct (getCat _ locale r) as [[[ci cat]|]|]; [|errs|discriminate].
    destruct (Category_Sub cat _) as [[si sub]|];
      [intros [= <-]; discriminate|errs].
  - unfold parseItem.
    destruct (Content res) as [|row0 rest]; [errs|].
    cbn zeta.
    destruct (getCat _ locale r) as [[[ci cat]|]|]; [|errs|discriminate].
    destruct (Category_Sub cat _) as [[si sub]|]; [|errs].
    destruct (Subcategory_Difficulty sub _) as [[di dif]|]; [|errs].
    destruct (negb (isEmpty (field row0 "body"))); [destruct rest|];
      first [errs|intros [= <-]; discriminate].
  - unfold parseChecklist. cbn zeta.
    destruct (getCat _ locale r) as [[[ci cat]|]|]; [|errs|discriminate].
    destruct (Category_Sub cat _) as [[si sub]|]; [|errs].
    destruct (Subcategory_Difficulty sub _) as [[di dif]|]; [|errs].
    cbn [Content].
    destruct (length (dropNil (Content res)) =? length (Checks (chk_node c)))
      eqn:El; cbn [negb].
    + destruct (addChecks _ 0 _ _); [intros [= <-]; discriminate|discriminate].
    + apply Nat.eqb_neq in El. intros [= <-]. cbn. intros [= <-].
      right. right. right. eauto.
  - errs.
Qed.

(** ** [Categories] *)

(** [Categories] files every category of the list under its locale and
    under no other, keeps under each locale the order of the list, and
    has no entry for a locale without category. *)
Theorem Categories_groups (r : ResourceParser) (loc : string) :
  (∀ c, c ∈ default [] (Categories r !! loc)
        ↔ c ∈ list_ (categories r) ∧ Locale c = loc)
  ∧ (∀ cs, Categories r !! loc = Some cs →
           cs ≠ [] ∧ cs = filter (λ c, Locale c = loc) (list_ (categories r)))
  ∧ (Categories r !! loc = None
     ↔ ∀ c, c ∈ list_ (categories r) → Locale c ≠ loc).
Proof.
  rewrite Categories_lookup.
  destruct (filter (λ c, Locale c = loc) (list_ (categories r)))
    as [|c0 cs0] eqn:E.
  - assert (Hnone : ∀ c, c ∈ list_ (categories r) → Locale c ≠ loc).
    { intros c Hc Hl.
      assert (Hin : c ∈ filter (λ c, Locale c = loc) (list_ (categories r)))
        by (apply list_elem_of_filter; auto).
      rewrite E in Hin. apply elem_of_nil in Hin. contradiction. }
    split; [|split].
    + intros c. cbn. split; [intros H; apply elem_of_nil in H; contradiction|].
      intros [Hc Hl]. destruct (Hnone c Hc Hl).
    + discriminate.
    + split; auto.
  - split; [|split].
    + intros c. cbn. rewrite <- E, list_elem_of_filter. tauto.
    + intros cs [= <-]. split; [discriminate|reflexivity].
    + split; [discriminate|]. intros Hnone.
      assert (Hin : c0 ∈ filter (λ c, Locale c = loc) (list_ (categories r)))
        by (rewrite E; apply list_elem_of_here).
      apply list_elem_of_filter in Hin as [Hl Hc]. destruct (Hnone c0 Hc Hl).
Qed.

(** ** The further theorems at sample inputs *)

Lemma registry_ok_withA : registry_ok Sample.withA.
Proof.
  apply (registry_ok_same
           (addCat (mkCategory "a" 1 "A" "en" []) NewResourceParser));
    [reflexivity|].
  apply registry_ok_addCat, registry_ok_new.
Qed.

Lemma registry_ok_withASD : registry_ok Sample.withASD.
Proof.
  apply (registry_ok_same
           (addCat (mkCategory "a" 1 "A" "en"
                      [mkSubcategory "s" 1 "S" [mkDifficulty "d" "D" [] None]])
              NewResourceParser));
    [reflexivity|].
  apply registry_ok_addCat, registry_ok_new.
Qed.

Lemma Parse_preserves_registry_ok_sample :
  registry_ok NewResourceParser ∧ registry_ok Sample.withA.
Proof.
  split; [exact registry_ok_new|].
  apply (Parse_preserves_registry_ok Sample.sep (CCategory Sample.catA)
           (mkResource [Sample.row [("name", "A")]]) "en" NewResourceParser
           (mkReturn None Sample.withA
              (mkResource [Sample.row [("name", "A")]]))).
  - exact registry_ok_new.
  - vm_compute; reflexivity.
Defined.


Lemma getCat_latest_sample :
  ∃ i c, getCat "a" "en" Sample.withASD = Val (Some (i, c))
    ∧ cat_ID c = "a" ∧ Locale c = "en".
Proof.
  destruct (getCat_latest "a" "en" Sample.withASD registry_ok_withASD)
    as [_ H].
  destruct (H (mkCategory "a" 1 "A" "en"
                 [mkSubcategory "s" 1 "S" [mkDifficulty "d" "D" [] None]]))
    as (i & c & Hg & _ & Hid & Hloc & _).
  - apply list_elem_of_here.
  - reflexivity.
  - reflexivity.
  - exists i, c. auto.
Defined.

Lemma parseSubcategory_registered_sample :
  ∃ r', parseSubcategory Sample.subS (mkResource [Sample.row [("name", "S")]])
          "en" Sample.withA
        = Val (mkReturn None r' (mkResource [Sample.row [("name", "S")]]))
      ∧ index (categories r') = index (categories Sample.withA).
Proof.
  destruct (parseSubcategory_registered Sample.subS
              (Sample.row [("name", "S")]) "en" Sample.withA
              (mkCategory "a" 1 "A" "en" []) registry_ok_withA)
    as (i & cat & r' & Hp & _ & _ & _ & _ & _ & _ & Hidx & _).
  - apply list_elem_of_here.
  - reflexivity.
  - reflexivity.
  - exists r'. auto.
Defined.

Lemma Parse_top_down_sample :
  ∃ r1 r2 r3 r4 r5,
    Parse Sample.sep (CCategory Sample.catA)
      (mkResource [Sample.row [("name", "A")]]) "en" NewResourceParser
    = Val (mkReturn None r1 (mkResource [Sample.row [("name", "A")]]))
    ∧ Parse Sample.sep (CSubcategory Sample.subS)
        (mkResource [Sample.row [("name", "S")]]) "en" r1
      = Val (mkReturn None r2 (mkResource [Sample.row [("name", "S")]]))
    ∧ Parse Sample.sep (CDifficulty Sample.difD)
        (mkResource [Sample.row [("description", "D")]]) "en" r2
      = Val (mkReturn None r3 (mkResource [Sample.row [("description", "D")]]))
    ∧ Parse Sample.sep (CItem Sample.itemI) Sample.legacyRows "en" r3
      = Val (mkReturn None r4 Sample.legacyRows)
    ∧ Parse Sample.sep (CChecklist Sample.checksC) Sample.checkRows "en" r4
      = Val (mkReturn None r5
               (mkResource [Sample.row [("text", " a ")];
                            Sample.row [("text", "b")]]))
    ∧ list_ (categories r5)
      = [mkCategory "a" 1 "A" "en"
           [mkSubcategory "s" 1 "S"
              [mkDifficulty "d" "D" [mkItem "i" "T" "legacy" 1]
                 (Some (mkChecklist [mkCheck "a" false; mkCheck "b" true]))]]].
Proof.
  destruct (Parse_top_down Sample.sep Sample.catA (sub_node Sample.subS)
              (dif_node Sample.difD) (item_node Sample.itemI)
              (chk_node Sample.checksC)
              (Sample.row [("name", "A")]) (Sample.row [("name", "S")])
              (Sample.row [("description", "D")])
              (Sample.row [("title", "T"); ("body", " legacy ")])
              (Content Sample.checkRows) "en" NewResourceParser eq_refl)
    as (r1 & r2 & r3 & r4 & r5 & H1 & H2 & H3 & H4 & H5 & Hl).
  exists r1, r2, r3, r4, r5.
  split; [exact H1|]. split; [exact H2|]. split; [exact H3|].
  split; [exact H4|]. split; [exact H5|].
  rewrite Hl. vm_compute. reflexivity.
Defined.

Lemma Parse_keeps_chains_sample :
  ∃ out, Parse Sample.sep (CItem Sample.itemI) Sample.paragraphRows "en"
           Sample.withASD = Val out
    ∧ err out = None
    ∧ resolveDif "a" "s" "d" "en" (parser out) = Some (0, 0, 0).
Proof.
  eexists. split; [vm_compute; reflexivity|]. split; [reflexivity|].
  apply (Parse_keeps_chains Sample.sep (CItem Sample.itemI)
           Sample.paragraphRows "en" Sample.withASD).
  - discriminate.
  - vm_compute; reflexivity.
  - vm_compute; reflexivity.
Defined.

Lemma parseChecklist_idempotent_sample :
  ∃ out, parseChecklist Sample.checksC Sample.checkRows "en" Sample.withASD
         = Val out
    ∧ err out = None
    ∧ resource out ≠ Sample.checkRows
    ∧ parseChecklist Sample.checksC (resource out) "en" (parser out) = Val out.
Proof.
  eexists. split; [vm_compute; reflexivity|]. split; [reflexivity|].
  split; [discriminate|].
  apply (parseChecklist_idempotent Sample.checksC Sample.checkRows "en"
           Sample.withASD).
  - vm_compute; reflexivity.
  - reflexivity.
Defined.

Lemma parseForm_stores_sample :
  ∃ r' form,
    parseForm Sample.formF Sample.formRows "en" NewResourceParser
    = Val (mkReturn None r' Sample.formRows)
    ∧ forms r' !! ("f", "en") = Some form
    ∧ form_Name form = "F"
    ∧ length (Screens form) = 1.
Proof.
  assert (H : ∃ r', parseForm Sample.formF Sample.formRows "en"
                      NewResourceParser
                    = Val (mkReturn None r' Sample.formRows))
    by (eexists; vm_compute; reflexivity).
  destruct H as [r' Hp].
  destruct (parseForm_stores Sample.formF Sample.formRows "en"
              NewResourceParser r' Hp)
    as (row0 & m & form & Hc & Hf & _ & _ & _ & _ & Hn & _ & Hs).
  exists r', form. split; [exact Hp|]. split; [exact Hf|]. split.
  - rewrite Hn. injection Hc as <- _. reflexivity.
  - apply Forall2_length in Hs. rewrite <- Hs. reflexivity.
Defined.

Lemma parseForm_idempotent_sample :
  ∃ r', parseForm Sample.formF Sample.formRows "en" NewResourceParser
        = Val (mkReturn None r' Sample.formRows)
      ∧ parseForm Sample.formF Sample.formRows "en" r'
        = Val (mkReturn None r' Sample.formRows).
Proof.
  assert (H : ∃ r', parseForm Sample.formF Sample.formRows "en"
                      NewResourceParser
                    = Val (mkReturn None r' Sample.formRows))
    by (eexists; vm_compute; reflexivity).
  destruct H as [r' Hp]. exists r'. split; [exact Hp|].
  apply (parseForm_idempotent Sample.formF Sample.formRows "en"
           NewResourceParser r' Hp).
Defined.

Lemma Parse_errors_by_kind_sample :
  ∃ out e, Parse Sample.sep (CChecklist Sample.checksC) Sample.checkRows3 "en"
             Sample.withASD = Val out
    ∧ err out = Some e
    ∧ (e = ErrNoCat "s" "en" ∨ e = ErrNoSub "s" "en" ∨ e = ErrNoDif "d" "en"
       ∨ ∃ l, l ≠ 2 ∧ e = ErrChecks l 2).
Proof.
  eexists. eexists. split; [vm_compute; reflexivity|]. split; [reflexivity|].
  eapply (Parse_errors_by_kind Sample.sep (CChecklist Sample.checksC)
            Sample.checkRows3 "en" Sample.withASD).
  - vm_compute; reflexivity.
  - reflexivity.
Defined.

(** ** Nothing is ever removed *)

Lemma extends_same (r r' : ResourceParser) :
  categories r' = categories r → forms r' = forms r → extends r r'.
Proof.
  intros Hc Hf. unfold extends. rewrite Hc, Hf.
  split; [|split]; auto. intros j c Hj. exists c. auto.
Qed.

Lemma extends_addCat (c : Category) (r : ResourceParser) :
  extends r (addCat c r).
Proof.
  split; [|split]; cbn [addCat categories index list_ forms]; auto.
  - intros j c0 Hj. exists c0. split; [|auto].
    apply lookup_app_l_Some. exact Hj.
  - intros k Hk. apply lookup_insert_is_Some'. auto.
Qed.

Lemma extends_updCat (ci : nat) (F : Category → Category)
    (r0 r : ResourceParser) :
  (∀ c, cat_ID (F c) = cat_ID c ∧ cat_Order (F c) = cat_Order c
        ∧ cat_Name (F c) = cat_Name c ∧ Locale (F c) = Locale c) →
  categories r = categories r0 → forms r = forms r0 →
  extends r0 (updCat ci F r).
Proof.
  intros HF Hc Hf.
  split; [|split]; cbn [updCat withList categories index list_ forms];
    rewrite ?Hc, ?Hf; auto.
  intros j c Hj. rewrite list_lookup_alter.
  destruct (decide (ci = j)) as [->|].
  - rewrite Hj. exists (F c). split; [reflexivity|apply HF].
  - exists c. auto.
Qed.

Ltac extended :=
  intros [= <-]; cbn [parser];
  first [ apply extends_same; reflexivity
        | apply extends_addCat
        | apply extends_updCat; [intros []; cbn; auto|reflexivity|reflexivity] ].

(** A call of [Parse] that returns removes nothing: the categories of the
    list keep their positions, identifiers, orders, names and locales,
    and the keys of the index and of the form store stay. *)
Theorem Parse_never_removes (sep : string) (cmp : Component) (res : Resource)
    (locale : string) (r : ResourceParser) (out : Return) :
  Parse sep cmp res locale r = Val out →
  extends r (parser out).
Proof.
  destruct cmp as [f|c|s|d|i|c|]; cbn [Parse].
  - unfold parseForm.
    destruct (Content res) as [|row0 m]; [discriminate|].
    destruct (formScreens _ 0 (Screens f) m); [|extended|discriminate].
    intros [= <-]. cbn [parser].
    split; [|split]; cbn [categories index list_ forms]; auto.
    + intros j c Hj. exists c. auto.
    + intros k Hk. apply lookup_insert_is_Some'. auto.
  - unfold parseCategory.
    destruct (Content res) as [|row [|row1 rows]]; extended.
  - unfold parseSubcategory.
    destruct (Content res) as [|row [|row1 rows]]; try extended.
    destruct (getCat _ locale r) as [[[ci cat]|]|];
      [extended|extended|discriminate].
  - unfold parseDifficulty.
    destruct (Content res) as [|row [|row1 rows]]; try extended.
    cbn zeta.
    destruct (getCat _ locale r) as [[[ci cat]|]|]; [|extended|discriminate].
    destruct (Category_Sub cat _) as [[si sub]|]; extended.
  - unfold parseItem.
    destruct (Content res) as [|row0 rest]; [extended|].
    cbn zeta.
    destruct (getCat _ locale r) as [[[ci cat]|]|]; [|extended|discriminate].
    destruct (Category_Sub cat _) as [[si sub]|]; [|extended].
    destruct (Subcategory_Difficulty sub _) as [[di dif]|]; [|extended].
    destruct (negb (isEmpty (field row0 "body"))); [destruct rest|]; extended.
  - unfold parseChecklist. cbn zeta.
    destruct (getCat _ locale r) as [[[ci cat]|]|]; [|extended|discriminate].
    destruct (Category_Sub cat _) as [[si sub]|]; [|extended].
    destruct (Subcategory_Difficulty sub _) as [[di dif]|]; [|extended].
    destruct (negb _); [extended|].
    destruct (addChecks _ 0 _ _); [extended|discriminate].
  - extended.
Qed.

Lemma Parse_never_removes_sample :
  ∃ out, Parse Sample.sep (CSubcategory Sample.subT)
           (mkResource [Sample.row [("name", "T")]]) "en" Sample.withAS
         = Val out
    ∧ extends Sample.withAS (parser out).
Proof.
  eexists. split; [vm_compute; reflexivity|].
  apply (Parse_never_removes Sample.sep (CSubcategory Sample.subT)
           (mkResource [Sample.row [("name", "T")]]) "en" Sample.withAS).
  vm_compute; reflexivity.
Defined.
